(** * snuba: the ClickHouse expression formatter and the stream offset tracker

    A shallow embedding of
    - [snuba/clickhouse/formatter/expression.py]: the visitor that renders a
      query expression tree as ClickHouse SQL text, in its canonical and its
      anonymized variant, together with the alias bookkeeping it keeps in a
      [ParsingContext];
    - [snuba/utils/streams/parallel.py]: the [OffsetTracker];
    - [snuba/writer.py]: [row_from_processed_event] and
      [_create_missing_array].

    The formatter mutates one [ParsingContext] while it walks the tree, and it
    can raise.  Both effects are explicit here: a formatting computation is a
    function from the context to an outcome and the context it leaves behind
    (the context keeps what was registered before an exception). *)

From Stdlib Require Import ZArith Lia Ascii String.
From stdpp Require Import base decidable option list sorting strings pretty gmap.

Local Open Scope Z_scope.

(** ** Exceptions and outcomes *)

Inductive Exception : Type :=
| ValueError (msg : string)
| IndexError (msg : string)
| RecursionError.

Inductive outcome (A : Type) : Type :=
| Returns (a : A)
| Raises (e : Exception).
Arguments Returns {A} a.
Arguments Raises {A} e.

(** ** The parsing context *)

(** Modelled from the spec: [snuba.query.parsing.ParsingContext] is not among
    the sources.  The spec describes it as the mutable set of alias strings
    already bound during the current pass; the formatter only calls
    [is_alias_present] and [add_alias] on it. *)
Abbreviation ParsingContext := (gset string).

Definition is_alias_present (alias : string) (ctx : ParsingContext) : bool :=
  bool_decide (alias ∈ ctx).

Definition add_alias (alias : string) (ctx : ParsingContext) : ParsingContext :=
  {[ alias ]} ∪ ctx.

(** ** Formatting computations: state (the context) and exceptions *)

Definition Fmt (A : Type) : Type := ParsingContext → outcome A * ParsingContext.

Definition pure {A} (a : A) : Fmt A := λ ctx, (Returns a, ctx).

Definition raise {A} (e : Exception) : Fmt A := λ ctx, (Raises e, ctx).

Definition andThen {A B} (m : Fmt A) (k : A → Fmt B) : Fmt B :=
  λ ctx, match m ctx with
         | (Returns a, ctx') => k a ctx'
         | (Raises e, ctx') => (Raises e, ctx')
         end.

Notation "'let!' x ':=' m 'in' k" := (andThen m (λ x, k))
  (at level 10, x name, m at level 100, k at level 200, only parsing).

(** [[f(x) for x in xs]]: the calls happen left to right, the first exception
    ends the loop. *)
Fixpoint for_each {A B} (f : A → Fmt B) (xs : list A) : Fmt (list B) :=
  match xs with
  | [] => pure []
  | x :: xs' => let! y := f x in let! ys := for_each f xs' in pure (y :: ys)
  end.

(** An outcome that does not come from running out of call depth. *)
Definition settled {A} (r : outcome A) : Prop := r ≠ Raises RecursionError.

(** [sep.join(parts)] *)
Definition join (sep : string) (parts : list string) : string :=
  String.concat sep parts.

(** ** The expression tree *)

(** The calendar values a literal can hold.  [tzinfo] is the UTC offset in
    minutes when the datetime is timezone-aware. *)
Record PyDate : Type := mkDate { year : N; month : N; day : N }.

Record PyDatetime : Type := mkDatetime {
  dt_date : PyDate;
  hour : N; minute : N; second : N; microsecond : N;
  tzinfo : option Z
}.

(** Modelled from the spec: [snuba.query.expressions] is not among the
    sources.  Section 3 gives a literal one of six kinds of value: null,
    boolean, integer or float, string, datetime, date.  Python checks nothing
    when a [Literal] is built, so a value of any other class can arrive as
    well, and [visit_literal] has a branch for it: [VOther] carries the name
    of that class.  A float is carried by its [repr], the text [str()] yields
    for it; the formatter does no arithmetic on it. *)
Inductive Value : Type :=
| VNone
| VBool (b : bool)
| VStr (s : string)
| VInt (z : Z)
| VFloat (repr : string)
| VDatetime (d : PyDatetime)
| VDate (d : PyDate)
| VOther (type_name : string).

Record LiteralNode : Type := mkLiteral {
  lit_alias : option string;
  lit_value : Value
}.

Record ColumnNode : Type := mkColumn {
  col_alias : option string;
  table_name : option string;
  column_name : string
}.

(** Modelled from the spec: the node classes of [snuba.query.expressions],
    with the fields section 3 lists, under the names the formatter reads them
    by.  [internal_function] is a [FunctionCall] by its annotation; the
    formatter only calls [accept] on it, so any expression is let in. *)
#[warnings="-register-all"]
Inductive Expression : Type :=
| Literal (exp : LiteralNode)
| Column (exp : ColumnNode)
| SubscriptableReference (alias : option string) (column : ColumnNode) (key : LiteralNode)
| FunctionCall (alias : option string) (function_name : string) (parameters : list Expression)
| CurriedFunctionCall (alias : option string) (internal_function : Expression)
    (parameters : list Expression)
| Argument (alias : option string) (name : string)
| Lambda (alias : option string) (parameters : list string) (transformation : Expression).

(** ** Boolean conditions *)

Module BooleanFunctions.
(** Modelled from the spec: the reserved function names of section 6
    ([snuba.query.conditions] is not among the sources). *)
Definition AND : string := "and".
Definition OR : string := "or".
End BooleanFunctions.

(** Modelled from the spec: [snuba.query.conditions] is not among the sources.
    Section 4.2 of the spec: AND/OR are binary [FunctionCall] nodes (exactly
    two parameters); from a node of the given operator, descend into each side
    while the child is itself the same operator, collecting its leaves, and
    keep a child as one opaque operand as soon as it is a different operator
    or not a boolean node; depth first, left side before right side. *)
Fixpoint get_first_level_conditions (function : string) (condition : Expression)
  {struct condition} : list Expression :=
  match condition with
  | FunctionCall _ name [lhs; rhs] =>
      if decide (name = function)
      then get_first_level_conditions function lhs
             ++ get_first_level_conditions function rhs
      else [condition]
  | _ => [condition]
  end.

Definition get_first_level_and_conditions (condition : Expression) : list Expression :=
  get_first_level_conditions BooleanFunctions.AND condition.

Definition get_first_level_or_conditions (condition : Expression) : list Expression :=
  get_first_level_conditions BooleanFunctions.OR condition.

(** ** Text of Python values *)

(** [str(n)] for an int. *)
Definition str_int (z : Z) : string := pretty z.

(** [n] in decimal, padded with zeros on the left to [width] characters. *)
Fixpoint zeros (k : nat) : string :=
  match k with
  | O => ""
  | S k' => "0" +:+ zeros k'
  end.

Definition zfill (width : nat) (n : N) : string :=
  let digits := pretty n in
  zeros (width - String.length digits) +:+ digits.

(** [date.isoformat()]: YYYY-MM-DD. *)
Definition date_isoformat (d : PyDate) : string :=
  zfill 4 (year d) +:+ "-" +:+ zfill 2 (month d) +:+ "-" +:+ zfill 2 (day d).

(** [datetime.replace(tzinfo=None, microsecond=0)] *)
Definition replace_naive_seconds (d : PyDatetime) : PyDatetime :=
  {| dt_date := dt_date d; hour := hour d; minute := minute d; second := second d;
     microsecond := 0; tzinfo := None |}.

Definition utcoffset_text (minutes : Z) : string :=
  let sign := if bool_decide (minutes < 0) then "-" else "+" in
  let m := Z.to_N (Z.abs minutes) in
  sign +:+ zfill 2 (m / 60)%N +:+ ":" +:+ zfill 2 (m mod 60)%N.

(** [datetime.isoformat()]: the fraction is printed only when it is not zero,
    the offset only for an aware value. *)
Definition datetime_isoformat (d : PyDatetime) : string :=
  date_isoformat (dt_date d) +:+ "T" +:+ zfill 2 (hour d) +:+ ":" +:+ zfill 2 (minute d)
    +:+ ":" +:+ zfill 2 (second d)
    +:+ (if bool_decide (microsecond d = 0%N) then "" else "." +:+ zfill 6 (microsecond d))
    +:+ (match tzinfo d with None => "" | Some off => utcoffset_text off end).

(** ** The formatter *)

(** The escaping primitives of [snuba.clickhouse.escaping] are not among the
    sources; the formatter is written against any three of them.  At every
    call site below the argument is a string, so the optional result of the
    Python functions is a string. *)
Class Escaping : Type := {
  escape_identifier : string → string;
  escape_alias : string → string;
  escape_string : string → string
}.

Section Formatter.

Context `{!Escaping}.

(** [not alias]: [None] and the empty string are both falsy. *)
Definition not_alias (alias : option string) : bool :=
  match alias with
  | None => true
  | Some a => bool_decide (a = "")
  end.

(** The alias-binding routine.  Its first test, [if not alias], holds for
    [None] and for the empty string ([not_alias]). *)
Definition _alias (formatted_exp : string) (alias : option string) : Fmt string :=
  λ ctx,
    match alias with
    | None => (Returns formatted_exp, ctx)
    | Some a =>
        if bool_decide (a = "") then (Returns formatted_exp, ctx)
        else if is_alias_present a ctx then (Returns (escape_alias a), ctx)
        else (Returns ("(" +:+ formatted_exp +:+ " AS " +:+ escape_alias a +:+ ")"),
              add_alias a ctx)
    end.

(** The five abstract hooks of [ClickhouseExpressionFormatterBase].  Each
    receives the literal; here the value arrives already narrowed to the
    kind [visit_literal] has tested for (the [cast] of the source), next to
    the literal's alias. *)
Record LiteralStrategy : Type := mkStrategy {
  _format_string_literal : string → option string → Fmt string;
  _format_number_literal : Value → option string → Fmt string;
  _format_boolean_literal : bool → option string → Fmt string;
  _format_datetime_literal : PyDatetime → option string → Fmt string;
  _format_date_literal : PyDate → option string → Fmt string
}.

(** [str(exp.value)] on the values [_format_number_literal] is called with. *)
Definition str_number (v : Value) : string :=
  match v with
  | VInt z => str_int z
  | VFloat repr => repr
  | _ => ""
  end.

(** [ClickhouseExpressionFormatter] *)
Definition ClickhouseExpressionFormatter : LiteralStrategy := {|
  _format_string_literal value alias := _alias (escape_string value) alias;
  _format_number_literal value alias := _alias (str_number value) alias;
  _format_boolean_literal value alias :=
    if value then _alias "true" alias else _alias "false" alias;
  _format_datetime_literal value alias :=
    let value := replace_naive_seconds value in
    _alias ("toDateTime('" +:+ datetime_isoformat value +:+ "', 'Universal')") alias;
  _format_date_literal value alias :=
    _alias ("toDate('" +:+ date_isoformat value +:+ "', 'Universal')") alias
|}.

(** [ClickHouseExpressionFormatterAnonymized] *)
Definition ClickHouseExpressionFormatterAnonymized : LiteralStrategy := {|
  _format_string_literal _ _ := pure "$S";
  _format_number_literal _ _ := pure "$N";
  _format_boolean_literal _ _ := pure "$B";
  _format_datetime_literal _ _ := pure "$DT";
  _format_date_literal _ _ := pure "$D"
|}.

Section Visitor.

Variable self : LiteralStrategy.

Definition visit_literal (exp : LiteralNode) : Fmt string :=
  match lit_value exp with
  | VNone => _alias "NULL" (lit_alias exp)
  | VBool b => _format_boolean_literal self b (lit_alias exp)
  | VStr s => _format_string_literal self s (lit_alias exp)
  | VInt _ | VFloat _ => _format_number_literal self (lit_value exp) (lit_alias exp)
  | VDatetime d => _format_datetime_literal self d (lit_alias exp)
  | VDate d => _format_date_literal self d (lit_alias exp)
  | VOther type_name =>
      raise (ValueError ("Unexpected literal type <class '" +:+ type_name +:+ "'>"))
  end.

(** [if exp.table_name:] holds for a table name that is neither [None] nor
    empty. *)
Definition has_table (exp : ColumnNode) : option string :=
  match table_name exp with
  | Some t => if bool_decide (t = "") then None else Some t
  | None => None
  end.

Definition column_ret (exp : ColumnNode) : list string :=
  match has_table exp with
  | Some t => [escape_identifier t; "."; escape_alias (column_name exp)]
  | None => [escape_identifier (column_name exp)]
  end.

Definition column_ret_unescaped (exp : ColumnNode) : list string :=
  match has_table exp with
  | Some t => [t; "."; column_name exp]
  | None => [column_name exp]
  end.

Definition visit_column (exp : ColumnNode) : Fmt string :=
  let ret := column_ret exp in
  let ret_unescaped := column_ret_unescaped exp in
  if bool_decide (col_alias exp ≠ Some (join "" ret_unescaped))
  then _alias (join "" ret) (col_alias exp)
  else pure (join "" ret).

Definition visit_subscriptable_reference (column : ColumnNode) (key : LiteralNode)
  : Fmt string :=
  let! c := visit_column column in
  let! k := visit_literal key in
  pure (c +:+ "[" +:+ k +:+ "]").

Definition visit_argument (name : string) : Fmt string :=
  pure (escape_identifier name).

(** The methods below call [accept] on sub-expressions; [accept] is the
    dispatch of the visitor, tied in [accept] further down. *)
Section Dispatch.

Variable accept : Expression → Fmt string.

Definition visit_params (parameters : list Expression) : Fmt string :=
  let! ret := for_each accept parameters in
  pure (join ", " ret).

Definition visit_function_call (alias : option string) (function_name : string)
    (parameters : list Expression) : Fmt string :=
  let exp := FunctionCall alias function_name parameters in
  if bool_decide (function_name = "array") then
    let! ps := visit_params parameters in
    _alias ("[" +:+ ps +:+ "]") alias
  else if bool_decide (function_name = BooleanFunctions.AND) then
    let! formatted := for_each accept (get_first_level_and_conditions exp) in
    pure (join " AND " formatted)
  else if bool_decide (function_name = BooleanFunctions.OR) then
    let! formatted := for_each accept (get_first_level_or_conditions exp) in
    pure ("(" +:+ join " OR " formatted +:+ ")")
  else
    let! ps := visit_params parameters in
    _alias (escape_identifier function_name +:+ "(" +:+ ps +:+ ")") alias.

Definition visit_curried_function_call (alias : option string)
    (internal_function : Expression) (parameters : list Expression) : Fmt string :=
  let! int_func := accept internal_function in
  let! ps := visit_params parameters in
  _alias (int_func +:+ "(" +:+ ps +:+ ")") alias.

Definition visit_lambda (alias : option string) (parameters : list string)
    (transformation : Expression) : Fmt string :=
  let parameters := map escape_identifier parameters in
  let! body := accept transformation in
  _alias ("(" +:+ join ", " parameters +:+ " -> " +:+ body +:+ ")") alias.

End Dispatch.

(** [exp.accept(self)].  Every [accept] is one more Python call on the
    stack; [depth] is the number of nested calls still allowed, and
    running out of it is Python's [RecursionError]. *)
Fixpoint accept (depth : nat) (exp : Expression) : Fmt string :=
  match depth with
  | O => raise RecursionError
  | S depth' =>
      match exp with
      | Literal l => visit_literal l
      | Column c => visit_column c
      | SubscriptableReference _ column key => visit_subscriptable_reference column key
      | FunctionCall alias function_name parameters =>
          visit_function_call (accept depth') alias function_name parameters
      | CurriedFunctionCall alias internal_function parameters =>
          visit_curried_function_call (accept depth') alias internal_function parameters
      | Argument _ name => visit_argument name
      | Lambda alias parameters transformation =>
          visit_lambda (accept depth') alias parameters transformation
      end
  end.

End Visitor.

(** *** The two concrete formatters *)

Inductive Strategy : Type := Canonical | Anonymized.

Definition formatter (s : Strategy) : LiteralStrategy :=
  match s with
  | Canonical => ClickhouseExpressionFormatter
  | Anonymized => ClickHouseExpressionFormatterAnonymized
  end.

(** *** Vocabulary of the specification *)

(** The five kinds of non-null value the formatter recognizes. *)
Inductive Kind : Type := KString | KNumber | KBoolean | KDatetime | KDate.

Definition kind_of (v : Value) : option Kind :=
  match v with
  | VStr _ => Some KString
  | VInt _ | VFloat _ => Some KNumber
  | VBool _ => Some KBoolean
  | VDatetime _ => Some KDatetime
  | VDate _ => Some KDate
  | VNone | VOther _ => None
  end.

(** The category token of section 4.5. *)
Definition token (k : Kind) : string :=
  match k with
  | KString => "$S"
  | KNumber => "$N"
  | KBoolean => "$B"
  | KDatetime => "$DT"
  | KDate => "$D"
  end.

(** The canonical text of section 4.4. *)
Definition canonical_text (v : Value) : string :=
  match v with
  | VStr s => escape_string s
  | VInt z => str_int z
  | VFloat repr => repr
  | VBool true => "true"
  | VBool false => "false"
  | VDatetime d =>
      "toDateTime('" +:+ datetime_isoformat (replace_naive_seconds d) +:+ "', 'Universal')"
  | VDate d => "toDate('" +:+ date_isoformat d +:+ "', 'Universal')"
  | VNone | VOther _ => ""
  end.

(** [(text AS alias)], the full binding. *)
Definition binding (text alias : string) : string :=
  "(" +:+ text +:+ " AS " +:+ escape_alias alias +:+ ")".

(** The unescaped, fully qualified reference of a column, and its escaped
    rendering. *)
Definition qualified_reference (exp : ColumnNode) : string :=
  match has_table exp with
  | Some t => t +:+ "." +:+ column_name exp
  | None => column_name exp
  end.

Definition escaped_reference (exp : ColumnNode) : string :=
  match has_table exp with
  | Some t => escape_identifier t +:+ "." +:+ escape_alias (column_name exp)
  | None => escape_identifier (column_name exp)
  end.

(** A series of calls of [_alias] within one pass. *)
Definition bind_all (calls : list (string * option string)) : Fmt (list string) :=
  for_each (λ c, _alias c.1 c.2) calls.

End Formatter.


(** ** Escaping, for running the formatter on concrete trees *)

Module Escaping.

Definition in_range (lo hi c : ascii) : bool :=
  (N.leb (N_of_ascii lo) (N_of_ascii c) && N.leb (N_of_ascii c) (N_of_ascii hi))%bool.

Definition is_digit (c : ascii) : bool := in_range "0" "9" c.

Definition is_word_char (c : ascii) : bool :=
  (in_range "A" "Z" c || in_range "a" "z" c || is_digit c || bool_decide (c = "_"%char))%bool.

Fixpoint all_chars (p : ascii → bool) (s : string) : bool :=
  match s with
  | EmptyString => true
  | String c s' => (p c && all_chars p s')%bool
  end.

Definition starts_with_digit (s : string) : bool :=
  match s with
  | EmptyString => false
  | String c _ => is_digit c
  end.

(** Every [quote] in [s] doubled. *)
Fixpoint double_char (quote : ascii) (s : string) : string :=
  match s with
  | EmptyString => EmptyString
  | String c s' =>
      if bool_decide (c = quote) then String c (String c (double_char quote s'))
      else String c (double_char quote s')
  end.

(** Every backslash and single quote in [s] prefixed with a backslash. *)
Fixpoint backslash_escape (s : string) : string :=
  match s with
  | EmptyString => EmptyString
  | String c s' =>
      if (bool_decide (c = "\"%char) || bool_decide (c = "'"%char))%bool
      then String "\"%char (String c (backslash_escape s'))
      else String c (backslash_escape s')
  end.

Section Dialect.

(** The spec names neither the quote character nor the reserved words of
    the dialect. *)
Variable quote : ascii.
Variable reserved : list string.

Definition needs_quoting (name : string) : bool :=
  (negb (all_chars is_word_char name) || starts_with_digit name
   || bool_decide (name ∈ reserved))%bool.

(** Modelled from the spec: [snuba.clickhouse.escaping] is not among the
    sources.  Section 4.1: an identifier is quoted only if it contains a
    character outside [A-Za-z0-9_], starts with a digit or collides with
    a reserved word; quoting uses the quote character of the dialect and
    doubles every embedded instance of it. *)
Definition quote_identifier (name : string) : string :=
  if needs_quoting name
  then String quote (double_char quote name) +:+ String quote EmptyString
  else name.

(** Modelled from the spec: the same quoting mechanism; a name that
    contains a dot passes only quoted. *)
Definition quote_alias (name : string) : string :=
  quote_identifier name.

End Dialect.

(** Modelled from the spec: the value in single quotes, embedded
    backslashes and single quotes prefixed with a backslash. *)
Definition quote_string (value : string) : string :=
  "'" +:+ backslash_escape value +:+ "'".

End Escaping.

(** The formatter run with the escaping above, backquote as the quote
    character and no reserved word. *)
Module Clickhouse.

Definition escaping : Escaping := {|
  escape_identifier := Escaping.quote_identifier "`" [];
  escape_alias := Escaping.quote_alias "`" [];
  escape_string := Escaping.quote_string
|}.

Definition _alias : string → option string → Fmt string := @_alias escaping.

Definition bind_all : list (string * option string) → Fmt (list string) :=
  @bind_all escaping.

Definition visit_literal (s : Strategy) : LiteralNode → Fmt string :=
  @visit_literal escaping (@formatter escaping s).

Definition visit_column : ColumnNode → Fmt string := @visit_column escaping.

Definition format (s : Strategy) (depth : nat) (exp : Expression) : Fmt string :=
  @accept escaping (@formatter escaping s) depth exp.

End Clickhouse.

(** ** The offset tracker *)

Abbreviation Offset := Z (only parsing).

Module OffsetTracker.

(** [__completed] holds, per index, [None] (offset never added), [False]
    (in progress) or [True] (completed). *)
Record t : Type := mk {
  epoch : Offset;
  completed : list (option bool)
}.

Definition __init__ (epoch : Offset) : t := mk epoch [].

Definition __get_index (self : t) (offset : Offset) : Z := offset - epoch self.

(** [list.index(False)] *)
Definition index_False (l : list (option bool)) : option nat :=
  fst <$> list_find (λ c, c = Some false) l.

Definition __len__ (self : t) : nat :=
  length (filter (λ c, c = Some false) (completed self)).

Definition __iter__ (self : t) : list Offset :=
  omap (λ '(i, c), if bool_decide (c = Some false) then Some (epoch self + Z.of_nat i) else None)
       (imap (λ i c, (i, c)) (completed self)).

Definition add (self : t) (offset : Offset) : outcome t :=
  let index := __get_index self offset in
  if negb (bool_decide (index >= Z.of_nat (length (completed self)))) then
    Raises (ValueError "offset must move monotonically")
  else
    let gap := replicate (Z.to_nat (index - Z.of_nat (length (completed self)))) None in
    Returns (mk (epoch self) ((completed self ++ gap) ++ [Some false])).

Definition remove (self : t) (offset : Offset) : outcome t :=
  let index := __get_index self offset in
  if (negb (bool_decide (index >= 0))
      || bool_decide (index > Z.of_nat (length (completed self))))%bool then
    Raises (ValueError "offset out of range")
  else
    match completed self !! Z.to_nat index with
    | None => Raises (IndexError "list index out of range")
    | Some c =>
        if negb (bool_decide (c = Some false)) then
          Raises (ValueError "offset is already untracked")
        else
          Returns (mk (epoch self) (<[Z.to_nat index := Some true]> (completed self)))
    end.

Definition value (self : t) : Offset :=
  match index_False (completed self) with
  | Some i => epoch self + Z.of_nat i
  | None => epoch self + Z.of_nat (length (completed self))
  end.

(** *** Histories of calls *)

Inductive Call : Type :=
| Add (offset : Offset)
| Remove (offset : Offset).

Definition call (self : t) (c : Call) : outcome t :=
  match c with
  | Add offset => add self offset
  | Remove offset => remove self offset
  end.

(** The calls made one after the other on the same tracker; the first
    exception ends the history. *)
Definition run (calls : list Call) (self : t) : outcome t :=
  foldl (λ acc c, match acc with Returns st => call st c | Raises e => Raises e end)
        (Returns self) calls.

(** The offsets added, and the offsets removed, in call order. *)
Definition added (calls : list Call) : list Offset :=
  omap (λ c, match c with Add o => Some o | Remove _ => None end) calls.

Definition removed (calls : list Call) : list Offset :=
  omap (λ c, match c with Remove o => Some o | Add _ => None end) calls.

(** Added and not yet removed. *)
Definition in_progress (calls : list Call) : list Offset :=
  filter (λ o, o ∉ removed calls) (added calls).

(** One past the last offset added, the epoch when none was. *)
Definition next_offset (epoch : Offset) (calls : list Call) : Offset :=
  match last (added calls) with
  | Some o => o + 1
  | None => epoch
  end.

(** What the list should hold for an offset, given the calls made: [None]
    if it was never added, else whether it was removed. *)
Definition status (calls : list Call) (offset : Offset) : option bool :=
  if decide (offset ∈ added calls)
  then Some (bool_decide (offset ∈ removed calls))
  else None.

(** The state of the tracker reflects the calls made on it since it was
    created with the epoch [e]. *)
Definition tracks (e : Offset) (calls : list Call) (self : t) : Prop :=
  epoch self = e
  ∧ Z.of_nat (length (completed self)) = next_offset e calls - e
  ∧ (∀ (i : nat) c, completed self !! i = Some c → c = status calls (e + Z.of_nat i))
  ∧ (∀ o, o ∈ added calls → e ≤ o < next_offset e calls)
  ∧ StronglySorted Z.lt (added calls)
  ∧ NoDup (removed calls)
  ∧ (∀ o, o ∈ removed calls → o ∈ added calls).

End OffsetTracker.


(** ** Trees that differ in their aliases or in one literal *)

(** The expression with the alias of its root replaced. *)
Definition with_alias (alias : option string) (exp : Expression) : Expression :=
  match exp with
  | Literal l => Literal (mkLiteral alias (lit_value l))
  | Column c => Column (mkColumn alias (table_name c) (column_name c))
  | SubscriptableReference _ column key => SubscriptableReference alias column key
  | FunctionCall _ function_name parameters => FunctionCall alias function_name parameters
  | CurriedFunctionCall _ internal_function parameters =>
      CurriedFunctionCall alias internal_function parameters
  | Argument _ name => Argument alias name
  | Lambda _ parameters transformation => Lambda alias parameters transformation
  end.

(** Two values of the same recognized kind. *)
Definition same_kind (v1 v2 : Value) : Prop :=
  ∃ k, kind_of v1 = Some k ∧ kind_of v2 = Some k.

(** [one_literal_differs e1 e2]: the two trees are the same tree except at one
    [Literal], whose value differs within its kind; alias and position are
    the same. *)
Inductive one_literal_differs : Expression → Expression → Prop :=
| old_here alias v1 v2 :
    same_kind v1 v2 →
    one_literal_differs (Literal (mkLiteral alias v1)) (Literal (mkLiteral alias v2))
| old_key alias column key_alias v1 v2 :
    same_kind v1 v2 →
    one_literal_differs (SubscriptableReference alias column (mkLiteral key_alias v1))
                        (SubscriptableReference alias column (mkLiteral key_alias v2))
| old_parameter alias function_name before e1 e2 after :
    one_literal_differs e1 e2 →
    one_literal_differs (FunctionCall alias function_name (before ++ e1 :: after))
                        (FunctionCall alias function_name (before ++ e2 :: after))
| old_internal alias f1 f2 parameters :
    one_literal_differs f1 f2 →
    one_literal_differs (CurriedFunctionCall alias f1 parameters)
                        (CurriedFunctionCall alias f2 parameters)
| old_curried_parameter alias internal_function before e1 e2 after :
    one_literal_differs e1 e2 →
    one_literal_differs (CurriedFunctionCall alias internal_function (before ++ e1 :: after))
                        (CurriedFunctionCall alias internal_function (before ++ e2 :: after))
| old_body alias parameters e1 e2 :
    one_literal_differs e1 e2 →
    one_literal_differs (Lambda alias parameters e1) (Lambda alias parameters e2).

(** The tree with every recognized literal value replaced by one fixed value
    of its kind: what is left is the shape the anonymized formatter sees. *)
Definition blank_value (v : Value) : Value :=
  match v with
  | VStr _ => VStr ""
  | VInt _ | VFloat _ => VInt 0
  | VBool _ => VBool false
  | VDatetime _ => VDatetime (mkDatetime (mkDate 1 1 1) 0 0 0 0 None)
  | VDate _ => VDate (mkDate 1 1 1)
  | VNone => VNone
  | VOther type_name => VOther type_name
  end.

Definition blank_literal (l : LiteralNode) : LiteralNode :=
  mkLiteral (lit_alias l) (blank_value (lit_value l)).

Fixpoint blank (exp : Expression) : Expression :=
  match exp with
  | Literal l => Literal (blank_literal l)
  | Column c => Column c
  | SubscriptableReference alias column key =>
      SubscriptableReference alias column (blank_literal key)
  | FunctionCall alias function_name parameters =>
      FunctionCall alias function_name (map blank parameters)
  | CurriedFunctionCall alias internal_function parameters =>
      CurriedFunctionCall alias (blank internal_function) (map blank parameters)
  | Argument alias name => Argument alias name
  | Lambda alias parameters transformation => Lambda alias parameters (blank transformation)
  end.

(** A left-nested chain of AND nodes: [first] joined with each further operand
    in turn, every AND node with an alias of its own. *)
Definition and_chain (first : Expression) (more : list (option string * Expression))
  : Expression :=
  foldl (λ acc m, FunctionCall m.1 BooleanFunctions.AND [acc; m.2]) first more.

(** What the flattener descends into: a binary call of the operator. *)
Definition is_binary (function : string) (exp : Expression) : bool :=
  match exp with
  | FunctionCall _ name [_; _] => bool_decide (name = function)
  | _ => false
  end.



(** The greatest number of nested [accept] calls a tree can ask for. *)
Fixpoint height (exp : Expression) : nat :=
  match exp with
  | Literal _ | Column _ | SubscriptableReference _ _ _ | Argument _ _ => 1
  | FunctionCall _ _ parameters => S (max_list_with height parameters)
  | CurriedFunctionCall _ internal_function parameters =>
      S (height internal_function `max` max_list_with height parameters)
  | Lambda _ _ transformation => S (height transformation)
  end.

(** The input contract for conditions: every call of [and] or [or] in the tree
    has exactly two parameters. *)
Fixpoint binary_conditions (exp : Expression) : bool :=
  match exp with
  | Literal _ | Column _ | SubscriptableReference _ _ _ | Argument _ _ => true
  | FunctionCall _ function_name parameters =>
      (bool_decide ((function_name = BooleanFunctions.AND ∨ function_name = BooleanFunctions.OR)
                    → length parameters = 2%nat)
       && forallb binary_conditions parameters)%bool
  | CurriedFunctionCall _ internal_function parameters =>
      (binary_conditions internal_function && forallb binary_conditions parameters)%bool
  | Lambda _ _ transformation => binary_conditions transformation
  end.

(** ** Aliases of a tree, and what a computation does to the context *)

Definition alias_set (alias : option string) : gset string :=
  match alias with
  | Some a => {[ a ]}
  | None => ∅
  end.

(** Every alias that sits on a node of the tree. *)
Fixpoint aliases (exp : Expression) : gset string :=
  match exp with
  | Literal l => alias_set (lit_alias l)
  | Column c => alias_set (col_alias c)
  | SubscriptableReference alias column key =>
      alias_set alias ∪ alias_set (col_alias column) ∪ alias_set (lit_alias key)
  | FunctionCall alias _ parameters => alias_set alias ∪ ⋃ (map aliases parameters)
  | CurriedFunctionCall alias internal_function parameters =>
      alias_set alias ∪ aliases internal_function ∪ ⋃ (map aliases parameters)
  | Argument alias _ => alias_set alias
  | Lambda alias _ transformation => alias_set alias ∪ aliases transformation
  end.

(** The computation only ever adds to the context, and only names of [S]. *)
Definition within {A} (S : gset string) (m : Fmt A) : Prop :=
  ∀ ctx, ctx ⊆ (m ctx).2 ∧ (m ctx).2 ⊆ ctx ∪ S.

(** A value of one of the six kinds [visit_literal] has a branch for. *)
Definition recognized (v : Value) : bool :=
  match v with
  | VOther _ => false
  | _ => true
  end.

(** Every literal of the tree holds a value of one of the six kinds. *)
Fixpoint recognized_literals (exp : Expression) : bool :=
  match exp with
  | Literal l => recognized (lit_value l)
  | SubscriptableReference _ _ key => recognized (lit_value key)
  | Column _ | Argument _ _ => true
  | FunctionCall _ _ parameters => forallb recognized_literals parameters
  | CurriedFunctionCall _ internal_function parameters =>
      (recognized_literals internal_function && forallb recognized_literals parameters)%bool
  | Lambda _ _ transformation => recognized_literals transformation
  end.

(** The computation looks at the context only through the names of [S]: from
    two contexts that hold the same names of [S] it ends the same way and
    adds the same names, all of [S]. *)
Definition frame {A} (S : gset string) (m : Fmt A) : Prop :=
  ∀ ctx ctx', (∀ a, a ∈ S → a ∈ ctx ↔ a ∈ ctx') →
    (m ctx).1 = (m ctx').1
    ∧ ∃ added, added ⊆ S ∧ (m ctx).2 = ctx ∪ added ∧ (m ctx').2 = ctx' ∪ added.

(** ** Formatting the same expression again *)

(** Two outcomes of the same kind: both return, or both raise the same
    exception. *)
Definition agrees {A B} (r1 : outcome A) (r2 : outcome B) : Prop :=
  match r1, r2 with
  | Returns _, Returns _ => True
  | Raises e1, Raises e2 => e1 = e2
  | _, _ => False
  end.

(** [m'] run later in the pass replays [m]: from any context that holds what
    [m] left, [m'] ends as [m] did and adds nothing. *)
Definition replays {A B} (m : Fmt A) (m' : Fmt B) : Prop :=
  ∀ ctx r ctx1, m ctx = (r, ctx1) →
    ctx ⊆ ctx1 ∧ ∀ ctx2, ctx1 ⊆ ctx2 → ∃ r2, m' ctx2 = (r2, ctx2) ∧ agrees r r2.

(** The alias a node hands to the alias-binding routine, if it does. *)
Definition bound_alias (s : Strategy) (exp : Expression) : option string :=
  match exp with
  | Literal l =>
      match lit_value l, s with
      | VNone, _ => lit_alias l
      | VOther _, _ => None
      | _, Canonical => lit_alias l
      | _, Anonymized => None
      end
  | Column c =>
      if bool_decide (col_alias c ≠ Some (qualified_reference c)) then col_alias c else None
  | FunctionCall alias function_name _ =>
      if bool_decide (function_name = BooleanFunctions.AND
                      ∨ function_name = BooleanFunctions.OR)
      then None else alias
  | CurriedFunctionCall alias _ _ | Lambda alias _ _ => alias
  | SubscriptableReference _ _ _ | Argument _ _ => None
  end.

(** When [m] returns, the alias [a] is in the context, and the text is the
    bare escaped alias if [a] was there before. *)
Definition binds `{!Escaping} {A} (a : string) (m : Fmt A) (text : A → string) : Prop :=
  ∀ ctx t ctx1, m ctx = (Returns t, ctx1) →
    a ∈ ctx1 ∧ (a ∈ ctx → text t = escape_alias a).

(** ** Trees without literal values *)

Definition is_null (v : Value) : bool :=
  match v with
  | VNone => true
  | _ => false
  end.

(** Every literal of the tree is null. *)
Fixpoint literals_null (exp : Expression) : bool :=
  match exp with
  | Literal l => is_null (lit_value l)
  | SubscriptableReference _ _ key => is_null (lit_value key)
  | Column _ | Argument _ _ => true
  | FunctionCall _ _ parameters => forallb literals_null parameters
  | CurriedFunctionCall _ internal_function parameters =>
      (literals_null internal_function && forallb literals_null parameters)%bool
  | Lambda _ _ transformation => literals_null transformation
  end.

(** ** The row writer *)

Module Writer.

(** What a processed event holds: the values JSON has.  A float is carried by
    its [repr], as in the formatter. *)
#[warnings="-register-all"]
Inductive PyValue : Type :=
| PNone
| PBool (b : bool)
| PInt (z : Z)
| PFloat (repr : string)
| PStr (s : string)
| PList (items : list PyValue)
| PDict (items : list (string * PyValue)).

(** A dict with string keys, in insertion order. *)
Abbreviation dict := (list (string * PyValue)).

Inductive Exception : Type :=
| TypeError (msg : string)
| ValueError (msg : string)
| KeyError (key : string).

Inductive completion (A : Type) : Type :=
| Done (a : A)
| Raised (e : Exception).
Arguments Done {A} a.
Arguments Raised {A} e.

(** [d.get(key)]: [None] here is the missing key. *)
Fixpoint dict_get (d : dict) (key : string) : option PyValue :=
  match d with
  | [] => None
  | (k, v) :: d' => if decide (k = key) then Some v else dict_get d' key
  end.

(** [d.keys()] *)
Definition keys (d : dict) : list string := d.*1.

(** [d[key]] *)
Definition dict_item (d : dict) (key : string) : completion PyValue :=
  match dict_get d key with
  | Some v => Done v
  | None => Raised (KeyError key)
  end.

(** [len(v)] *)
Definition py_len (v : PyValue) : completion nat :=
  match v with
  | PStr s => Done (String.length s)
  | PList items => Done (length items)
  | PDict items => Done (length items)
  | PNone => Raised (TypeError "object of type 'NoneType' has no len()")
  | PBool _ => Raised (TypeError "object of type 'bool' has no len()")
  | PInt _ => Raised (TypeError "object of type 'int' has no len()")
  | PFloat _ => Raised (TypeError "object of type 'float' has no len()")
  end.

(** [s.split('.', 1)[0]] when [s] has a dot: the text before the first one. *)
Fixpoint before_dot (s : string) : option string :=
  match s with
  | EmptyString => None
  | String c s' =>
      if bool_decide (c = "."%char) then Some EmptyString
      else match before_dot s' with
           | Some p => Some (String c p)
           | None => None
           end
  end.

(** ['.' in s] *)
Definition has_dot (s : string) : bool :=
  match before_dot s with
  | Some _ => true
  | None => false
  end.

(** [key.startswith(prefix)] *)
Definition startswith (key prefix : string) : bool := String.prefix prefix key.

(** The loop of [_create_missing_array] over the keys of the event. *)
Fixpoint sibling_array (prefix : string) (event : dict) (event_keys : list string)
  : completion PyValue :=
  match event_keys with
  | [] => Done (PList [])
  | key :: rest =>
      if startswith key prefix then
        match dict_item event key with
        | Done v =>
            match py_len v with
            | Done n => Done (PList (replicate n PNone))
            | Raised e => Raised e
            end
        | Raised e => Raised e
        end
      else sibling_array prefix event rest
  end.

Definition _create_missing_array (colname : string) (event : dict) : completion PyValue :=
  match before_dot colname with
  | None => Raised (ValueError "not enough values to unpack (expected 2, got 1)")
  | Some prefix =>
      let prefix := prefix +:+ "." in
      sibling_array prefix event (keys event)
  end.

Definition is_None (v : PyValue) : bool :=
  match v with
  | PNone => true
  | _ => false
  end.

(** The body of the loop of [row_from_processed_event], for one column. *)
Definition column_value (event : dict) (colname : string) : completion PyValue :=
  let value := default PNone (dict_get event colname) in
  if (is_None value && has_dot colname)%bool
  then _create_missing_array colname event
  else Done value.

(** [columns] defaults to [ALL_COLUMNS.column_names], which is not among the
    sources: it is an argument here. *)
Fixpoint row_from_processed_event (event : dict) (columns : list string)
  : completion (list PyValue) :=
  match columns with
  | [] => Done []
  | colname :: rest =>
      match column_value event colname with
      | Done value =>
          match row_from_processed_event event rest with
          | Done values => Done (value :: values)
          | Raised e => Raised e
          end
      | Raised e => Raised e
      end
  end.

(** *** Vocabulary for the properties *)

(** The keys of the event that start with the prefix of the column and its
    dot, in the order of the event. *)
Definition siblings (event : dict) (colname : string) : list string :=
  match before_dot colname with
  | Some prefix => filter (λ key, startswith key (prefix +:+ ".") = true) (keys event)
  | None => []
  end.

(** The column is not in the event, or is there with [None]. *)
Definition absent (event : dict) (colname : string) : Prop :=
  dict_get event colname = None ∨ dict_get event colname = Some PNone.

(** A value [len()] accepts. *)
Definition sized (v : PyValue) : bool :=
  match v with
  | PStr _ | PList _ | PDict _ => true
  | _ => false
  end.

End Writer.

(** * Properties of the formatter *)

Lemma string_length_app (s1 s2 : string) :
  String.length (s1 +:+ s2) = (String.length s1 + String.length s2)%nat.
Proof. induction s1 as [|c s1 IH]; simpl; [done | by rewrite IH]. Qed.

Lemma andThen_ext {A B} (m : Fmt A) (k1 k2 : A → Fmt B) ctx :
  (∀ a ctx', k1 a ctx' = k2 a ctx') → andThen m k1 ctx = andThen m k2 ctx.
Proof. intros Hk. unfold andThen. destruct (m ctx) as [[a|e] ctx']; [apply Hk | done]. Qed.

Lemma for_each_ext {A B} (f g : A → Fmt B) xs ctx :
  (∀ x ctx', f x ctx' = g x ctx') → for_each f xs ctx = for_each g xs ctx.
Proof.
  intros Hfg. revert ctx. induction xs as [|x xs IH]; intros ctx; simpl; [done|].
  unfold andThen. rewrite Hfg. destruct (g x ctx) as [[y|e] ctx1]; [|done].
  by rewrite IH.
Qed.

Lemma for_each_map {A B C} (f : B → Fmt C) (g : A → B) xs ctx :
  for_each f (map g xs) ctx = for_each (λ x, f (g x)) xs ctx.
Proof.
  revert ctx. induction xs as [|x xs IH]; intros ctx; simpl; [done|].
  unfold andThen. destruct (f (g x) ctx) as [[y|e] ctx1]; [|done].
  by rewrite IH.
Qed.

Lemma for_each_cons_returns {A B} (f : A → Fmt B) x xs ctx y ctx1 ys ctx2 :
  f x ctx = (Returns y, ctx1) → for_each f xs ctx1 = (Returns ys, ctx2) →
  for_each f (x :: xs) ctx = (Returns (y :: ys), ctx2).
Proof. intros Hx Hxs. simpl. unfold andThen. by rewrite Hx, Hxs. Qed.

(** Induction over expression trees, with the hypothesis for every parameter
    of a call. *)
Lemma Expression_tree_ind (P : Expression → Prop) :
  (∀ l, P (Literal l)) →
  (∀ c, P (Column c)) →
  (∀ alias column key, P (SubscriptableReference alias column key)) →
  (∀ alias function_name parameters,
      Forall P parameters → P (FunctionCall alias function_name parameters)) →
  (∀ alias internal_function parameters,
      P internal_function → Forall P parameters →
      P (CurriedFunctionCall alias internal_function parameters)) →
  (∀ alias name, P (Argument alias name)) →
  (∀ alias parameters transformation,
      P transformation → P (Lambda alias parameters transformation)) →
  ∀ exp, P exp.
Proof.
  intros HL HC HS HF HCu HA HLa.
  fix IH 1. intros [l|c|a c k|a f ps|a int ps|a n|a ps body].
  - apply HL.
  - apply HC.
  - apply HS.
  - apply HF. induction ps as [|p ps IHps]; constructor; [apply IH | apply IHps].
  - apply HCu; [apply IH|].
    induction ps as [|p ps IHps]; constructor; [apply IH | apply IHps].
  - apply HA.
  - apply HLa, IH.
Qed.

(** ** The flattener *)

Lemma flatten_binary function alias lhs rhs :
  get_first_level_conditions function (FunctionCall alias function [lhs; rhs])
  = get_first_level_conditions function lhs
    ++ get_first_level_conditions function rhs.
Proof. simpl. by rewrite decide_True. Qed.

Lemma flatten_opaque function exp :
  is_binary function exp = false → get_first_level_conditions function exp = [exp].
Proof.
  destruct exp as [| | |alias name ps| | |]; try done.
  destruct ps as [|lhs [|rhs [|? ?]]]; try done.
  simpl. intros Hname. apply bool_decide_eq_false in Hname. by rewrite decide_False.
Qed.

(** The flattener looks at names and arities only, never at an alias. *)
Lemma flatten_alias_irrelevant function alias alias' name parameters :
  is_binary function (FunctionCall alias name parameters) = true →
  get_first_level_conditions function (FunctionCall alias name parameters)
  = get_first_level_conditions function (FunctionCall alias' name parameters).
Proof.
  destruct parameters as [|lhs [|rhs [|? ?]]]; simpl; intros Hb; try discriminate Hb.
  apply bool_decide_eq_true in Hb. by rewrite !decide_True.
Qed.

Lemma flatten_blank function exp :
  get_first_level_conditions function (blank exp)
  = map blank (get_first_level_conditions function exp).
Proof.
  induction exp as [l|c|a c k|a f ps IHps|a int ps _ _|a n|a ps body _]
    using Expression_tree_ind; try done.
  destruct ps as [|lhs [|rhs [|? ?]]]; try done.
  simpl. destruct (decide (f = function)); [|done].
  inversion IHps as [|? ? Hl Hrest]; subst. inversion Hrest as [|? ? Hr _]; subst.
  by rewrite Hl, Hr, map_app.
Qed.

Lemma flatten_and_chain first more :
  is_binary BooleanFunctions.AND first = false →
  Forall (λ m, is_binary BooleanFunctions.AND m.2 = false) more →
  get_first_level_and_conditions (and_chain first more) = first :: more.*2.
Proof.
  intros Hfirst. unfold get_first_level_and_conditions.
  induction more as [|m more IH] using rev_ind; intros Hmore.
  { by apply flatten_opaque. }
  apply Forall_app in Hmore as [Hmore Hm]. rewrite Forall_singleton in Hm.
  unfold and_chain. rewrite foldl_app. cbn [foldl]. rewrite flatten_binary.
  fold (and_chain first more). rewrite IH by done.
  rewrite (flatten_opaque _ _ Hm). by rewrite fmap_app.
Qed.

Lemma same_kind_blank v1 v2 : same_kind v1 v2 → blank_value v1 = blank_value v2.
Proof. intros (k & H1 & H2). destruct v1, v2; simplify_eq/=; done. Qed.

Lemma one_literal_differs_blank e1 e2 : one_literal_differs e1 e2 → blank e1 = blank e2.
Proof.
  induction 1 as [a v1 v2 Hk|a c ka v1 v2 Hk|a f pre e1 e2 post _ IH|a f1 f2 ps _ IH
                  |a int pre e1 e2 post _ IH|a ps e1 e2 _ IH]; simpl.
  - unfold blank_literal; simpl. by rewrite (same_kind_blank _ _ Hk).
  - unfold blank_literal; simpl. by rewrite (same_kind_blank _ _ Hk).
  - by rewrite !map_app, !map_cons, IH.
  - by rewrite IH.
  - by rewrite !map_app, !map_cons, IH.
  - by rewrite IH.
Qed.

(** ** Call depth *)

Lemma max_list_with_ge {A} (f : A → nat) (x : A) (l : list A) :
  x ∈ l → (f x ≤ max_list_with f l)%nat.
Proof.
  induction 1 as [x l|x y l _ IH]; simpl; lia.
Qed.

(** The operands of a well-formed condition are well-formed, and sit strictly
    below the node when the flattener descends into it. *)
Lemma flatten_operands function exp x :
  x ∈ get_first_level_conditions function exp →
  binary_conditions exp = true →
  binary_conditions x = true
  ∧ (height x ≤ height exp)%nat
  ∧ (is_binary function exp = true → (height x < height exp)%nat).
Proof.
  revert x.
  induction exp as [l|c|a c k|a f ps IHps|a int ps _ _|a n|a ps body _]
    using Expression_tree_ind; intros x Hx Hwf;
    try (apply list_elem_of_singleton in Hx as ->; by split).
  destruct (is_binary function (FunctionCall a f ps)) eqn:Hbin.
  2:{ rewrite flatten_opaque in Hx by done. apply list_elem_of_singleton in Hx as ->.
      by split. }
  destruct ps as [|lhs [|rhs [|? ?]]]; try done.
  simpl in Hbin. apply bool_decide_eq_true in Hbin as ->.
  rewrite flatten_binary in Hx.
  inversion IHps as [|? ? IHl IHrest]; subst. inversion IHrest as [|? ? IHr _]; subst.
  simpl in Hwf. apply andb_prop in Hwf as [_ Hwf].
  apply andb_prop in Hwf as [Hwfl Hwf]. apply andb_prop in Hwf as [Hwfr _].
  apply elem_of_app in Hx as [Hx|Hx].
  - destruct (IHl x Hx Hwfl) as (? & ? & _). simpl. split; [done|]. split; lia.
  - destruct (IHr x Hx Hwfr) as (? & ? & _). simpl. split; [done|]. split; lia.
Qed.

Lemma settled_raises {A B} (e : Exception) :
  settled (@Raises A e) → settled (@Raises B e).
Proof. unfold settled. intros He [= ->]. by apply He. Qed.

(** When every element settles, so does the loop over them. *)
Lemma for_each_all_settled {A B} (f : A → Fmt B) xs ctx :
  (∀ x ctx', x ∈ xs → settled (f x ctx').1) → settled (for_each f xs ctx).1.
Proof.
  revert ctx. induction xs as [|x xs IH]; intros ctx Hxs; [done|].
  simpl. unfold andThen.
  pose proof (Hxs x ctx ltac:(by left)) as Hx.
  destruct (f x ctx) as [[y|e] ctx1]; [|exact (settled_raises e Hx)].
  assert (settled (for_each f xs ctx1).1) as Hrest.
  { apply IH. intros x' ctx' Hin. apply Hxs. by right. }
  destruct (for_each f xs ctx1) as [[ys|e] ctx2]; [done | exact Hrest].
Qed.

Lemma andThen_settled {A B} (m1 m2 : Fmt A) (k1 k2 : A → Fmt B) ctx r ctx' :
  (∀ r1 ctx1, m1 ctx = (r1, ctx1) → settled r1 → m2 ctx = (r1, ctx1)) →
  (∀ a ctx1 r2 ctx2, k1 a ctx1 = (r2, ctx2) → settled r2 → k2 a ctx1 = (r2, ctx2)) →
  andThen m1 k1 ctx = (r, ctx') → settled r → andThen m2 k2 ctx = (r, ctx').
Proof.
  intros Hm Hk Hrun Hr. unfold andThen in *.
  destruct (m1 ctx) as [[a|e] ctx1] eqn:H1.
  - rewrite (Hm _ _ eq_refl) by done. by apply Hk.
  - simplify_eq. rewrite (Hm _ _ eq_refl); [done|].
    intros [= ->]. by apply Hr.
Qed.

Lemma for_each_settled {A B} (f g : A → Fmt B) xs :
  (∀ x ctx r ctx', f x ctx = (r, ctx') → settled r → g x ctx = (r, ctx')) →
  ∀ ctx r ctx', for_each f xs ctx = (r, ctx') → settled r → for_each g xs ctx = (r, ctx').
Proof.
  intros Hfg. induction xs as [|x xs IH]; intros ctx r ctx' Hrun Hr; [done|].
  simpl in *. revert Hrun Hr. apply andThen_settled; [apply Hfg|].
  intros y ctx1 r2 ctx2. apply andThen_settled; [apply IH|]. by intros.
Qed.

Section FormatterFacts.

Context {escaping : Escaping}.

(** ** The alias-binding routine *)

Lemma _alias_absent text alias ctx :
  not_alias alias = true → _alias text alias ctx = (Returns text, ctx).
Proof.
  destruct alias as [a|]; simpl; [|done].
  intros Ha. unfold _alias. by rewrite Ha.
Qed.

Lemma _alias_fresh text a ctx :
  a ≠ "" → a ∉ ctx →
  _alias text (Some a) ctx = (Returns (binding text a), {[a]} ∪ ctx).
Proof.
  intros Hne Hfresh. unfold _alias, is_alias_present.
  rewrite bool_decide_eq_false_2 by done.
  by rewrite bool_decide_eq_false_2 by done.
Qed.

Lemma _alias_bound text a ctx :
  a ≠ "" → a ∈ ctx → _alias text (Some a) ctx = (Returns (escape_alias a), ctx).
Proof.
  intros Hne Hin. unfold _alias, is_alias_present.
  rewrite bool_decide_eq_false_2 by done.
  by rewrite bool_decide_eq_true_2 by done.
Qed.

(** The three cases of [_alias] in one equation. *)
Lemma _alias_cases text alias ctx :
  _alias text alias ctx =
    match alias with
    | None => (Returns text, ctx)
    | Some a =>
        if bool_decide (a = "") then (Returns text, ctx)
        else if bool_decide (a ∈ ctx) then (Returns (escape_alias a), ctx)
        else (Returns (binding text a), {[a]} ∪ ctx)
    end.
Proof. by destruct alias. Qed.

Lemma binding_longer text a :
  (String.length (escape_alias a) < String.length (binding text a))%nat.
Proof.
  unfold binding. rewrite !string_length_app. simpl. lia.
Qed.

Lemma binding_not_bare text a : binding text a ≠ escape_alias a.
Proof.
  intros Heq. pose proof (binding_longer text a) as Hlt. rewrite Heq in Hlt. lia.
Qed.

(** ** Literals *)

(** C1, amended: a [Literal] whose value is null renders as [NULL] passed
    through the alias-binding routine, in the canonical and in the
    anonymized formatter alike: without an alias (or with the empty one) it
    is the bare token [NULL]; with an alias already in the context it is
    the bare escaped alias; with a fresh alias it is [(NULL AS alias)] and
    the alias is registered. *)
Theorem C1_null_literal_is_bound (s : Strategy) (alias : option string)
    (ctx : ParsingContext) (depth : nat) :
  let exp := mkLiteral alias VNone in
  accept (formatter s) (S depth) (Literal exp) ctx = visit_literal (formatter s) exp ctx
  ∧ visit_literal (formatter s) exp ctx =
      match alias with
      | None => (Returns "NULL", ctx)
      | Some a =>
          if bool_decide (a = "") then (Returns "NULL", ctx)
          else if bool_decide (a ∈ ctx) then (Returns (escape_alias a), ctx)
          else (Returns ("(NULL AS " +:+ escape_alias a +:+ ")"), {[a]} ∪ ctx)
      end.
Proof.
  split; [done|]. destruct s; unfold visit_literal; simpl; apply _alias_cases.
Qed.

(** C3, amended: for a non-null literal of a recognized kind, the anonymized
    formatter returns the bare category token whatever the alias, and
    leaves the context as it was; the canonical formatter passes the
    canonical text through the alias-binding routine, so there a fresh
    alias gives [(text AS alias)] and is registered. *)
Theorem C3_literal_alias_by_strategy (v : Value) (k : Kind) (alias : option string)
    (ctx : ParsingContext) :
  kind_of v = Some k →
  visit_literal (formatter Anonymized) (mkLiteral alias v) ctx = (Returns (token k), ctx)
  ∧ visit_literal (formatter Canonical) (mkLiteral alias v) ctx =
      match alias with
      | None => (Returns (canonical_text v), ctx)
      | Some a =>
          if bool_decide (a = "") then (Returns (canonical_text v), ctx)
          else if bool_decide (a ∈ ctx) then (Returns (escape_alias a), ctx)
          else (Returns (binding (canonical_text v) a), {[a]} ∪ ctx)
      end.
Proof.
  intros Hk. split.
  - destruct v; simplify_eq/=; done.
  - rewrite <- _alias_cases.
    destruct v as [|[]| | | | | |]; simplify_eq/=; done.
Qed.

(** C9: a literal whose value is none of the six recognized kinds makes
    [visit_literal] raise [ValueError] under both strategies, at once: no
    text is returned and the context is untouched. *)
Theorem C9_unexpected_literal_raises (s : Strategy) (alias : option string) (v : Value)
    (ctx : ParsingContext) (depth : nat) :
  v ≠ VNone → kind_of v = None →
  ∃ type_name,
    v = VOther type_name
    ∧ visit_literal (formatter s) (mkLiteral alias v) ctx
      = (Raises (ValueError ("Unexpected literal type <class '" +:+ type_name +:+ "'>")), ctx)
    ∧ accept (formatter s) (S depth) (Literal (mkLiteral alias v)) ctx
      = (Raises (ValueError ("Unexpected literal type <class '" +:+ type_name +:+ "'>")), ctx).
Proof.
  intros Hnone Hkind. destruct v; simplify_eq/=.
  eexists; split; [reflexivity|]. by destruct s.
Qed.

(** ** Columns *)

Lemma join_column_ret exp : join "" (column_ret exp) = escaped_reference exp.
Proof.
  unfold column_ret, escaped_reference. destruct (has_table exp); simpl; [|done].
  by destruct (escape_alias (column_name exp)).
Qed.

Lemma join_column_ret_unescaped exp :
  join "" (column_ret_unescaped exp) = qualified_reference exp.
Proof.
  unfold column_ret_unescaped, qualified_reference. destruct (has_table exp); simpl; [|done].
  by destruct (column_name exp).
Qed.

(** C6: a column whose alias is its own unescaped, fully qualified reference
    (table name, dot, column name when there is a table name; the column
    name alone otherwise) renders as the escaped reference alone: no [AS],
    and the context is left as it was. *)
Theorem C6_column_self_alias_suppressed (s : Strategy) (exp : ColumnNode)
    (ctx : ParsingContext) (depth : nat) :
  col_alias exp = Some (qualified_reference exp) →
  visit_column exp ctx = (Returns (escaped_reference exp), ctx)
  ∧ accept (formatter s) (S depth) (Column exp) ctx = (Returns (escaped_reference exp), ctx).
Proof.
  intros Halias.
  assert (visit_column exp ctx = (Returns (escaped_reference exp), ctx)) as Hcol; [|done].
  unfold visit_column. rewrite join_column_ret, join_column_ret_unescaped.
  rewrite bool_decide_eq_false_2; [done|]. by intros Hne.
Qed.

(** ** One alias, many uses *)

(** What a series of [_alias] calls returns and leaves in the context. *)
Lemma bind_all_spec (calls : list (string * option string)) (ctx : ParsingContext) :
  ∃ outs ctx',
    bind_all calls ctx = (Returns outs, ctx')
    ∧ (∀ x, x ∈ ctx' ↔ x ∈ ctx ∨ (x ≠ "" ∧ Some x ∈ calls.*2))
    ∧ (∀ i t a, calls !! i = Some (t, Some a) → a ≠ "" →
         outs !! i = Some (if bool_decide (a ∈ ctx ∨ Some a ∈ (take i calls).*2)
                           then escape_alias a else binding t a)).
Proof.
  revert ctx. induction calls as [|[t0 a0] calls IH]; intros ctx.
  { exists [], ctx. split; [done|]. split; [|done].
    intros x. split; [by left|]. intros [?|[_ Hx]]; [done | by apply elem_of_nil in Hx]. }
  assert (∃ out0 ctx1, _alias t0 a0 ctx = (Returns out0, ctx1)
            ∧ (∀ x, x ∈ ctx1 ↔ x ∈ ctx ∨ (x ≠ "" ∧ a0 = Some x))
            ∧ (∀ a, a0 = Some a → a ≠ "" →
                 out0 = if bool_decide (a ∈ ctx) then escape_alias a else binding t0 a))
    as (out0 & ctx1 & Hhead & Hctx1 & Hout0).
  { destruct a0 as [a0|].
    2:{ exists t0, ctx. split; [done|]. split; [|done].
        intros x. split; [by left | by intros [?|[_ ?]]]. }
    destruct (decide (a0 = "")) as [->|Hne].
    { exists t0, ctx. split; [done|]. split.
      - intros x. split; [by left | intros [?|[Hx [= <-]]]; done].
      - by intros a [= <-] Hx. }
    destruct (decide (a0 ∈ ctx)) as [Hin|Hout].
    - exists (escape_alias a0), ctx. split; [by apply _alias_bound|]. split.
      + intros x. split; [by left|]. intros [?|[_ [= ->]]]; done.
      + intros a [= <-] _. by rewrite bool_decide_eq_true_2.
    - exists (binding t0 a0), ({[a0]} ∪ ctx). split; [by apply _alias_fresh|]. split.
      + intros x. rewrite elem_of_union, elem_of_singleton. split.
        * intros [->|?]; [by right | by left].
        * intros [?|[_ [= ->]]]; [by right | by left].
      + intros a [= <-] _. by rewrite bool_decide_eq_false_2. }
  destruct (IH ctx1) as (outs & ctx' & Htail & Hctx' & Houts).
  exists (out0 :: outs), ctx'. split.
  { unfold bind_all in *. by eapply for_each_cons_returns. }
  split.
  { intros x. rewrite Hctx', Hctx1. rewrite fmap_cons, elem_of_cons. simpl.
    intuition congruence. }
  intros [|i] t a Hi Hne; simpl in *.
  - simplify_eq. rewrite (Hout0 a) by done.
    assert (a ∈ ctx ↔ a ∈ ctx ∨ Some a ∈ @nil (option string)) as Hiff.
    { rewrite elem_of_nil. tauto. }
    by rewrite (bool_decide_ext _ _ Hiff).
  - rewrite (Houts i t a) by done.
    assert (a ∈ ctx1 ∨ Some a ∈ (take i calls).*2
            ↔ a ∈ ctx ∨ Some a ∈ a0 :: (take i calls).*2) as Hiff.
    { rewrite Hctx1, elem_of_cons. intuition congruence. }
    by rewrite (bool_decide_ext _ _ Hiff).
Qed.

(** C4: within one pass, for a non-empty alias that the context does not
    hold when the pass starts, the first call of the alias-binding routine
    with that alias returns [(expr AS alias)], every later call with it
    returns the bare escaped alias (which is a different text), and the
    context holds the alias from the first call on. *)
Theorem C4_alias_bound_once (calls : list (string * option string)) (a : string)
    (ctx : ParsingContext) :
  a ≠ "" → a ∉ ctx →
  ∃ outs ctx',
    bind_all calls ctx = (Returns outs, ctx')
    ∧ ∀ i t, calls !! i = Some (t, Some a) →
        outs !! i = Some (if bool_decide (Some a ∈ (take i calls).*2)
                          then escape_alias a else binding t a)
        ∧ binding t a ≠ escape_alias a
        ∧ a ∈ (bind_all (take (S i) calls) ctx).2
        ∧ a ∈ ctx'.
Proof.
  intros Hne Hfresh.
  destruct (bind_all_spec calls ctx) as (outs & ctx' & Hrun & Hctx' & Houts).
  exists outs, ctx'. split; [done|]. intros i t Hi.
  split; [|split; [apply binding_not_bare|split]].
  - rewrite (Houts i t a) by done.
    assert (a ∈ ctx ∨ Some a ∈ (take i calls).*2 ↔ Some a ∈ (take i calls).*2) as Hiff
      by tauto.
    by rewrite (bool_decide_ext _ _ Hiff).
  - destruct (bind_all_spec (take (S i) calls) ctx) as (outs1 & ctx1 & -> & Hctx1 & _).
    simpl. apply Hctx1. right. split; [done|].
    apply (list_elem_of_fmap_2 snd _ (t, Some a)).
    apply list_elem_of_lookup. exists i. rewrite lookup_take_lt by lia. done.
  - apply Hctx'. right. split; [done|].
    apply (list_elem_of_fmap_2 snd _ (t, Some a)).
    apply list_elem_of_lookup. by exists i.
Qed.

(** ** Call depth *)

(** A result reached within some call depth is the result at any greater
    depth: the depth only decides whether the walk gets to its end. *)
Lemma accept_deeper self depth exp ctx r ctx' :
  accept self depth exp ctx = (r, ctx') → settled r →
  accept self (S depth) exp ctx = (r, ctx').
Proof.
  revert exp ctx r ctx'. induction depth as [|depth IH]; intros exp ctx r ctx' Hrun Hr.
  { cbv [accept raise] in Hrun. simplify_eq. exfalso. by apply Hr. }
  assert (∀ xs ctx r ctx',
             for_each (accept self depth) xs ctx = (r, ctx') → settled r →
             for_each (accept self (S depth)) xs ctx = (r, ctx')) as IHs.
  { intros xs. apply for_each_settled, IH. }
  assert (∀ ps ctx r ctx',
             visit_params (accept self depth) ps ctx = (r, ctx') → settled r →
             visit_params (accept self (S depth)) ps ctx = (r, ctx')) as Hparams.
  { intros ps ctx0 r0 ctx0'. unfold visit_params.
    apply andThen_settled; [apply IHs | by intros]. }
  destruct exp as [l|c|a c k|a f ps|a int ps|a n|a ps body];
    cbn [accept] in *; try done.
  - revert Hrun Hr. unfold visit_function_call.
    repeat case_bool_decide.
    + apply andThen_settled; [|by intros]. intros r1 ctx1. by apply Hparams.
    + apply andThen_settled; [|by intros]. intros r1 ctx1. by apply IHs.
    + apply andThen_settled; [|by intros]. intros r1 ctx1. by apply IHs.
    + apply andThen_settled; [|by intros]. intros r1 ctx1. by apply Hparams.
  - revert Hrun Hr. unfold visit_curried_function_call.
    apply andThen_settled; [apply IH|]. intros int_func ctx1 r2 ctx2.
    apply andThen_settled; [|by intros]. intros r1 ctx3. by apply Hparams.
  - revert Hrun Hr. unfold visit_lambda.
    apply andThen_settled; [apply IH | by intros].
Qed.

Lemma accept_depth_irrelevant self d1 d2 exp ctx r ctx' :
  (d1 ≤ d2)%nat → accept self d1 exp ctx = (r, ctx') → settled r →
  accept self d2 exp ctx = (r, ctx').
Proof.
  induction 1 as [|d2 _ IH]; [done|]. intros Hrun Hr. apply accept_deeper; [|done].
  by apply IH.
Qed.

Lemma _alias_settled text alias ctx : settled (_alias text alias ctx).1.
Proof. rewrite _alias_cases. destruct alias; repeat case_bool_decide; done. Qed.

Lemma visit_literal_settled s exp ctx : settled (visit_literal (formatter s) exp ctx).1.
Proof.
  destruct exp as [alias v]. unfold visit_literal; simpl.
  destruct s, v as [|[]| | | | | |]; simpl; try done; apply _alias_settled.
Qed.

Lemma visit_column_settled exp ctx : settled (visit_column exp ctx).1.
Proof. unfold visit_column. case_bool_decide; [apply _alias_settled | done]. Qed.

Lemma andThen_all_settled {A B} (m : Fmt A) (k : A → Fmt B) ctx :
  settled (m ctx).1 → (∀ a ctx', settled (k a ctx').1) → settled (andThen m k ctx).1.
Proof.
  intros Hm Hk. unfold andThen. destruct (m ctx) as [[a|e] ctx1]; [apply Hk | exact (settled_raises e Hm)].
Qed.

(** The walk gets to its end: on a tree whose conditions are binary, a call
    depth of the height of the tree is enough, and formatting then returns
    or raises an exception of its own, under both strategies. *)
Lemma accept_settles s depth exp ctx :
  binary_conditions exp = true → (height exp ≤ depth)%nat →
  settled (accept (formatter s) depth exp ctx).1.
Proof.
  revert exp ctx. induction depth as [|depth IH]; intros exp ctx Hwf Hheight.
  { destruct exp; simpl in Hheight; lia. }
  assert (∀ ps ctx', forallb binary_conditions ps = true →
            (max_list_with height ps ≤ depth)%nat →
            settled (for_each (accept (formatter s) depth) ps ctx').1) as IHs.
  { intros ps ctx' Hps Hmax. apply for_each_all_settled. intros x ctx'' Hx.
    apply Is_true_true_2, forallb_True in Hps.
    apply IH.
    - eapply Forall_forall in Hps; [|done]. by apply Is_true_true_1.
    - pose proof (max_list_with_ge height x ps Hx). lia. }
  assert (∀ function a f ps ctx',
            binary_conditions (FunctionCall a f ps) = true →
            (height (FunctionCall a f ps) ≤ S depth)%nat →
            is_binary function (FunctionCall a f ps) = true →
            settled (for_each (accept (formatter s) depth)
                       (get_first_level_conditions function (FunctionCall a f ps)) ctx').1)
    as Hflat.
  { intros function a f ps ctx' Hwf' Hh' Hbin. apply for_each_all_settled.
    intros x ctx'' Hx.
    destruct (flatten_operands _ _ _ Hx Hwf') as (Hwfx & _ & Hlt).
    apply IH; [done|]. specialize (Hlt Hbin). lia. }
  destruct exp as [l|c|a c k|a f ps|a int ps|a n|a ps body]; cbn [accept].
  - apply visit_literal_settled.
  - apply visit_column_settled.
  - unfold visit_subscriptable_reference.
    apply andThen_all_settled; [apply visit_column_settled|]. intros col ctx1.
    apply andThen_all_settled; [apply visit_literal_settled | done].
  - pose proof Hwf as Hwf'. pose proof Hheight as Hheight'.
    simpl in Hwf, Hheight. apply andb_prop in Hwf as [Hbin Hps].
    apply bool_decide_eq_true in Hbin.
    assert (∀ ctx', settled (visit_params (accept (formatter s) depth) ps ctx').1) as Hparams.
    { intros ctx'. unfold visit_params.
      apply andThen_all_settled; [apply IHs; [done | lia] | done]. }
    unfold visit_function_call. repeat case_bool_decide.
    + apply andThen_all_settled; [apply Hparams | intros; apply _alias_settled].
    + apply andThen_all_settled; [|done]. apply Hflat; try done.
      subst f. destruct ps as [|lhs [|rhs [|? ?]]]; try done; simpl in Hbin;
        specialize (Hbin ltac:(by left)); lia.
    + apply andThen_all_settled; [|done]. apply Hflat; try done.
      subst f. destruct ps as [|lhs [|rhs [|? ?]]]; try done; simpl in Hbin;
        specialize (Hbin ltac:(by right)); lia.
    + apply andThen_all_settled; [apply Hparams | intros; apply _alias_settled].
  - simpl in Hwf, Hheight. apply andb_prop in Hwf as [Hint Hps].
    unfold visit_curried_function_call.
    apply andThen_all_settled; [apply IH; [done | lia]|]. intros int_func ctx1.
    apply andThen_all_settled; [|intros; apply _alias_settled].
    unfold visit_params. apply andThen_all_settled; [apply IHs; [done | lia] | done].
  - done.
  - simpl in Hwf, Hheight. unfold visit_lambda.
    apply andThen_all_settled; [apply IH; [done | lia] | intros; apply _alias_settled].
Qed.

(** A call of [and] or [or] that is not binary is its own single operand, so
    formatting it never gets to an end. *)
Lemma accept_not_binary self depth function alias parameters ctx :
  function = BooleanFunctions.AND ∨ function = BooleanFunctions.OR →
  is_binary function (FunctionCall alias function parameters) = false →
  accept self depth (FunctionCall alias function parameters) ctx = (Raises RecursionError, ctx).
Proof.
  intros Hfunction Hbin. revert ctx. induction depth as [|depth IH]; intros ctx; [done|].
  cbn [accept]. unfold visit_function_call.
  unfold get_first_level_and_conditions, get_first_level_or_conditions.
  destruct Hfunction as [-> | ->].
  - rewrite bool_decide_eq_false_2 by done. rewrite bool_decide_eq_true_2 by done.
    rewrite flatten_opaque by done. simpl. unfold andThen. by rewrite IH.
  - rewrite bool_decide_eq_false_2 by done. rewrite bool_decide_eq_false_2 by done.
    rewrite bool_decide_eq_true_2 by done.
    rewrite flatten_opaque by done. simpl. unfold andThen. by rewrite IH.
Qed.

(** ** The empty alias *)

Lemma _alias_empty text ctx : _alias text (Some "") ctx = _alias text None ctx.
Proof. done. Qed.

Lemma visit_literal_empty_alias s v ctx :
  visit_literal (formatter s) (mkLiteral (Some "") v) ctx
  = visit_literal (formatter s) (mkLiteral None v) ctx.
Proof. destruct s, v as [|[]| | | | | |]; done. Qed.

Lemma visit_column_empty_alias table column ctx :
  visit_column (mkColumn (Some "") table column) ctx
  = visit_column (mkColumn None table column) ctx.
Proof.
  unfold visit_column; simpl.
  by case_bool_decide.
Qed.

Lemma accept_empty_alias s depth exp ctx :
  accept (formatter s) depth (with_alias (Some "") exp) ctx
  = accept (formatter s) depth (with_alias None exp) ctx.
Proof.
  revert exp ctx. induction depth as [|depth IH]; intros exp ctx; [done|].
  destruct exp as [l|c|a c k|a f ps|a int ps|a n|a ps body]; simpl.
  - apply visit_literal_empty_alias.
  - apply visit_column_empty_alias.
  - done.
  - unfold visit_function_call.
    repeat case_bool_decide; subst; try done.
    + destruct (is_binary BooleanFunctions.AND (FunctionCall None BooleanFunctions.AND ps))
        eqn:Hbin.
      * unfold get_first_level_and_conditions.
        by rewrite (flatten_alias_irrelevant _ (Some "") None).
      * unfold get_first_level_and_conditions.
        rewrite !flatten_opaque by done.
        pose proof (IH (FunctionCall None BooleanFunctions.AND ps) ctx) as Hrec.
        simpl in Hrec. simpl. unfold andThen. by rewrite Hrec.
    + destruct (is_binary BooleanFunctions.OR (FunctionCall None BooleanFunctions.OR ps))
        eqn:Hbin.
      * unfold get_first_level_or_conditions.
        by rewrite (flatten_alias_irrelevant _ (Some "") None).
      * unfold get_first_level_or_conditions.
        rewrite !flatten_opaque by done.
        pose proof (IH (FunctionCall None BooleanFunctions.OR ps) ctx) as Hrec.
        simpl in Hrec. simpl. unfold andThen. by rewrite Hrec.
  - done.
  - done.
  - done.
Qed.

(** C10: an empty alias is an absent alias.  The alias-binding routine
    returns the text as it is and leaves the context alone, and an
    expression whose alias is the empty string formats, under both
    strategies, exactly as the same expression without an alias. *)
Theorem C10_empty_alias_is_no_alias (s : Strategy) (text : string) (exp : Expression)
    (ctx : ParsingContext) (depth : nat) :
  _alias text (Some "") ctx = (Returns text, ctx)
  ∧ _alias text None ctx = (Returns text, ctx)
  ∧ accept (formatter s) depth (with_alias (Some "") exp) ctx
    = accept (formatter s) depth (with_alias None exp) ctx.
Proof. split; [done|]. split; [done|]. apply accept_empty_alias. Qed.

(** ** Boolean conditions *)

(** C2, amended: a call of [or] renders as its flattened operands, formatted
    left to right and joined with [ OR ], inside one pair of parentheses,
    and that text is returned as it is: the alias-binding routine is not
    called, so the alias of the node is neither rendered nor registered,
    and the binary node formats the same with any alias. *)
Theorem C2_or_parenthesized_unbound (s : Strategy) (alias alias' : option string)
    (parameters : list Expression) (lhs rhs : Expression) (depth : nat)
    (ctx : ParsingContext) :
  accept (formatter s) (S depth) (FunctionCall alias BooleanFunctions.OR parameters) ctx
  = (let! formatted := for_each (accept (formatter s) depth)
        (get_first_level_or_conditions (FunctionCall alias BooleanFunctions.OR parameters)) in
     pure ("(" +:+ join " OR " formatted +:+ ")")) ctx
  ∧ get_first_level_or_conditions (FunctionCall alias BooleanFunctions.OR [lhs; rhs])
    = get_first_level_or_conditions lhs ++ get_first_level_or_conditions rhs
  ∧ accept (formatter s) (S depth) (FunctionCall alias BooleanFunctions.OR [lhs; rhs]) ctx
    = accept (formatter s) (S depth) (FunctionCall alias' BooleanFunctions.OR [lhs; rhs]) ctx.
Proof. done. Qed.

(** C5: a left-nested chain of [and] calls over operands that are not
    themselves binary [and] calls renders as the operands, formatted in
    source order, joined with [ AND ]: no parentheses are added, and the
    text is returned without going through the alias-binding routine, so
    the aliases of the [and] nodes are dropped. *)
Theorem C5_and_chain_flattened (s : Strategy) (first : Expression)
    (more : list (option string * Expression)) (depth : nat) (ctx : ParsingContext) :
  more ≠ [] →
  is_binary BooleanFunctions.AND first = false →
  Forall (λ m, is_binary BooleanFunctions.AND m.2 = false) more →
  accept (formatter s) (S depth) (and_chain first more) ctx
  = (let! formatted := for_each (accept (formatter s) depth) (first :: more.*2) in
     pure (join " AND " formatted)) ctx.
Proof.
  intros Hmore Hfirst Hleaves.
  rewrite <- (flatten_and_chain first more) by done.
  destruct more as [|m more _] using rev_ind; [done|].
  unfold and_chain. rewrite foldl_app. done.
Qed.

(** ** Anonymization *)

Lemma visit_literal_blank l ctx :
  visit_literal (formatter Anonymized) (blank_literal l) ctx
  = visit_literal (formatter Anonymized) l ctx.
Proof. destruct l as [a []]; done. Qed.

Lemma accept_blank depth exp ctx :
  accept (formatter Anonymized) depth (blank exp) ctx
  = accept (formatter Anonymized) depth exp ctx.
Proof.
  revert exp ctx. induction depth as [|depth IH]; intros exp ctx; [done|].
  assert (∀ ps ctx, for_each (accept (formatter Anonymized) depth) (map blank ps) ctx
                    = for_each (accept (formatter Anonymized) depth) ps ctx) as IHs.
  { intros ps ctx'. rewrite for_each_map. by apply for_each_ext. }
  destruct exp as [l|c|a c k|a f ps|a int ps|a n|a ps body]; simpl.
  - apply visit_literal_blank.
  - done.
  - unfold visit_subscriptable_reference. apply andThen_ext. intros col ctx'.
    unfold andThen. by rewrite visit_literal_blank.
  - unfold visit_function_call, visit_params.
    unfold get_first_level_and_conditions, get_first_level_or_conditions.
    change (FunctionCall a f (map blank ps)) with (blank (FunctionCall a f ps)).
    rewrite !flatten_blank.
    repeat case_bool_decide; unfold andThen; by rewrite IHs.
  - unfold visit_curried_function_call, visit_params, andThen.
    rewrite IH. destruct (accept _ depth int ctx) as [[int_func|e] ctx1]; [|done].
    by rewrite IHs.
  - done.
  - unfold visit_lambda, andThen. by rewrite IH.
Qed.

(** C7: two trees that are the same except for the value of one literal,
    of the same kind on both sides, get the same anonymized rendering (and
    leave the same context), from a fresh context as from any other. *)
Theorem C7_anonymized_ignores_literal_values (e1 e2 : Expression) (depth : nat)
    (ctx : ParsingContext) :
  one_literal_differs e1 e2 →
  accept (formatter Anonymized) depth e1 ∅ = accept (formatter Anonymized) depth e2 ∅
  ∧ accept (formatter Anonymized) depth e1 ctx = accept (formatter Anonymized) depth e2 ctx.
Proof.
  intros Hdiff. apply one_literal_differs_blank in Hdiff.
  split; rewrite <- (accept_blank depth e1), <- (accept_blank depth e2); by rewrite Hdiff.
Qed.

End FormatterFacts.

(** * Properties of the offset tracker *)

Section OffsetTrackerFacts.

Import OffsetTracker.

Lemma run_snoc calls c self :
  run (calls ++ [c]) self
  = match run calls self with
    | Returns st => call st c
    | Raises e => Raises e
    end.
Proof. unfold run. by rewrite foldl_app. Qed.

Lemma added_snoc_add calls o : added (calls ++ [Add o]) = added calls ++ [o].
Proof. unfold added. by rewrite omap_app. Qed.

Lemma added_snoc_remove calls o : added (calls ++ [Remove o]) = added calls.
Proof. unfold added. rewrite omap_app. simpl. by rewrite app_nil_r. Qed.

Lemma removed_snoc_add calls o : removed (calls ++ [Add o]) = removed calls.
Proof. unfold removed. rewrite omap_app. simpl. by rewrite app_nil_r. Qed.

Lemma removed_snoc_remove calls o : removed (calls ++ [Remove o]) = removed calls ++ [o].
Proof. unfold removed. by rewrite omap_app. Qed.

Lemma next_offset_snoc_add e calls o : next_offset e (calls ++ [Add o]) = o + 1.
Proof. unfold next_offset. by rewrite added_snoc_add, last_snoc. Qed.

Lemma next_offset_snoc_remove e calls o :
  next_offset e (calls ++ [Remove o]) = next_offset e calls.
Proof. unfold next_offset. by rewrite added_snoc_remove. Qed.

Lemma tracks_init e : tracks e [] (__init__ e).
Proof.
  unfold tracks, next_offset; simpl.
  split; [done|]. split; [lia|]. split; [done|].
  split; [by intros o Ho%elem_of_nil|].
  split; [constructor|]. split; [constructor|].
  by intros o Ho%elem_of_nil.
Qed.

Lemma status_snoc_add_other calls o x :
  x ≠ o → status (calls ++ [Add o]) x = status calls x.
Proof.
  intros Hne. unfold status. rewrite added_snoc_add, removed_snoc_add.
  destruct (decide (x ∈ added calls)) as [Hin|Hout].
  - rewrite decide_True; [done|]. apply elem_of_app. by left.
  - rewrite decide_False; [done|]. rewrite elem_of_app, list_elem_of_singleton. tauto.
Qed.

Lemma status_snoc_remove_other calls o x :
  x ≠ o → status (calls ++ [Remove o]) x = status calls x.
Proof.
  intros Hne. unfold status. rewrite added_snoc_remove, removed_snoc_remove.
  destruct (decide (x ∈ added calls)); [|done]. f_equal.
  apply bool_decide_ext. rewrite elem_of_app, list_elem_of_singleton. tauto.
Qed.

(** [add] succeeds exactly on an offset at or past the next one expected,
    and then the tracker reflects the longer history. *)
Lemma add_tracks e calls self o self' :
  tracks e calls self → add self o = Returns self' →
  next_offset e calls ≤ o ∧ tracks e (calls ++ [Add o]) self'.
Proof.
  intros (Hepoch & Hlen & Hentries & Hbounds & Hsorted & Hnodup & Hsub) Hadd.
  unfold add, __get_index in Hadd. rewrite Hepoch in Hadd.
  case_bool_decide as Hidx; simpl in Hadd; [|done]. simplify_eq.
  assert (next_offset (epoch self) calls ≤ o) as Hnext by lia.
  split; [done|].
  set (e := epoch self) in *. set (len := length (completed self)) in *.
  set (n := Z.to_nat (o - e - Z.of_nat len)).
  assert (Z.of_nat n = o - e - Z.of_nat len) as Hn by (unfold n; lia).
  assert (o ∉ added calls) as Hfresh.
  { intros Hin%Hbounds. lia. }
  unfold tracks; simpl. rewrite next_offset_snoc_add, added_snoc_add, removed_snoc_add.
  split; [done|]. split.
  { rewrite !length_app, length_replicate. simpl. fold len. lia. }
  split.
  { intros i c Hi.
    destruct (decide (i < len)%nat) as [Hlt|Hge].
    { rewrite <- app_assoc, lookup_app_l in Hi by done.
      rewrite status_snoc_add_other by lia. by apply Hentries. }
    destruct (decide (i < len + n)%nat) as [Hgap|Hlast].
    { rewrite lookup_app_l in Hi by (rewrite length_app, length_replicate; fold len; lia).
      rewrite lookup_app_r in Hi by (fold len; lia).
      apply lookup_replicate in Hi as [-> _].
      rewrite status_snoc_add_other by lia.
      unfold status. rewrite decide_False; [done|].
      intros Hin%Hbounds. lia. }
    rewrite lookup_app_r in Hi by (rewrite length_app, length_replicate; fold len; lia).
    rewrite length_app, length_replicate in Hi. fold len in Hi.
    apply list_lookup_singleton_Some in Hi as [Hi <-].
    assert (e + Z.of_nat i = o) as -> by lia.
    unfold status. rewrite added_snoc_add, removed_snoc_add.
    rewrite decide_True by (apply elem_of_app; right; by apply list_elem_of_singleton).
    rewrite bool_decide_eq_false_2; [done|]. by intros Hin%Hsub. }
  split.
  { intros x [Hx%Hbounds| ->%list_elem_of_singleton]%elem_of_app; lia. }
  split.
  { apply StronglySorted_app_2; [|done|repeat constructor].
    intros x1 x2 Hx1%Hbounds ->%list_elem_of_singleton. lia. }
  split; [done|].
  intros x Hx%Hsub. apply elem_of_app. by left.
Qed.

(** [remove] succeeds exactly on an offset in progress, and then the
    tracker reflects the longer history. *)
Lemma remove_tracks e calls self o self' :
  tracks e calls self → remove self o = Returns self' →
  o ∈ in_progress calls ∧ tracks e (calls ++ [Remove o]) self'.
Proof.
  intros (Hepoch & Hlen & Hentries & Hbounds & Hsorted & Hnodup & Hsub) Hrem.
  unfold remove, __get_index in Hrem. rewrite Hepoch in Hrem.
  destruct (negb _ || _)%bool eqn:Hrange; [done|].
  apply orb_false_iff in Hrange as [Hlo Hhi].
  apply negb_false_iff, bool_decide_eq_true in Hlo. apply bool_decide_eq_false in Hhi.
  destruct (completed self !! Z.to_nat (o - e)) as [c|] eqn:Hc; [|done].
  case_bool_decide as Hfalse; simpl in Hrem; [|done]. simplify_eq.
  set (e := epoch self) in *.
  pose proof (lookup_lt_Some _ _ _ Hc) as Hidx.
  apply Hentries in Hc. rewrite Z2Nat.id in Hc by lia.
  replace (e + (o - e)) with o in Hc by lia.
  unfold status in Hc. destruct (decide (o ∈ added calls)) as [Hadded|]; [|done].
  injection Hc as Hc. symmetry in Hc. apply bool_decide_eq_false in Hc.
  split.
  { unfold in_progress. by apply list_elem_of_filter. }
  unfold tracks; simpl.
  rewrite next_offset_snoc_remove, added_snoc_remove, removed_snoc_remove.
  split; [done|]. split; [by rewrite length_insert|]. split.
  { intros i c Hi.
    destruct (decide (i = Z.to_nat (o - e))) as [->|Hne].
    - rewrite list_lookup_insert_eq in Hi by done. simplify_eq.
      rewrite Z2Nat.id by lia. replace (e + (o - e)) with o by lia.
      unfold status. rewrite added_snoc_remove, removed_snoc_remove.
      rewrite decide_True by done. rewrite bool_decide_eq_true_2; [done|].
      apply elem_of_app. right. by apply list_elem_of_singleton.
    - rewrite list_lookup_insert_ne in Hi by done.
      rewrite status_snoc_remove_other by lia. by apply Hentries. }
  split; [done|]. split; [done|]. split.
  { apply NoDup_app. split; [done|]. split; [|apply NoDup_singleton].
    intros x Hx ->%list_elem_of_singleton. done. }
  intros x [Hx%Hsub| ->%list_elem_of_singleton]%elem_of_app; done.
Qed.

(** Every history that ran without an exception leaves a tracker that
    reflects it. *)
Lemma run_tracks e calls self :
  run calls (__init__ e) = Returns self → tracks e calls self.
Proof.
  revert self. induction calls as [|c calls IH] using rev_ind; intros self Hrun.
  { unfold run in Hrun; simpl in Hrun. simplify_eq. apply tracks_init. }
  rewrite run_snoc in Hrun.
  destruct (run calls (__init__ e)) as [st|err]; [|done].
  specialize (IH st eq_refl).
  destruct c as [o|o]; simpl in Hrun.
  - by eapply add_tracks.
  - by eapply remove_tracks.
Qed.

Lemma StronglySorted_filter {A} (R : relation A) (P : A → Prop)
    `{!∀ x, Decision (P x)} (l : list A) :
  StronglySorted R l → StronglySorted R (filter P l).
Proof.
  induction 1 as [|x l Hl IH Hx]; [constructor|].
  rewrite filter_cons. destruct (decide (P x)); [|done].
  constructor; [done|].
  apply Forall_forall. intros y [_ Hy]%list_elem_of_filter.
  by eapply Forall_forall in Hx.
Qed.

(** The entry of an offset in progress is [False]. *)
Lemma in_progress_entry e calls self o :
  tracks e calls self → o ∈ in_progress calls →
  ∃ i : nat, o = e + Z.of_nat i ∧ completed self !! i = Some (Some false).
Proof.
  intros (Hepoch & Hlen & Hentries & Hbounds & _) [Hnot Hin]%list_elem_of_filter.
  pose proof (Hbounds o Hin) as Ho.
  exists (Z.to_nat (o - e)). split; [lia|].
  destruct (lookup_lt_is_Some_2 (completed self) (Z.to_nat (o - e))) as [c Hc]; [lia|].
  rewrite Hc. f_equal. apply Hentries in Hc. rewrite Hc.
  replace (e + Z.of_nat (Z.to_nat (o - e))) with o by lia.
  unfold status. rewrite decide_True by done. by rewrite bool_decide_eq_false_2.
Qed.

(** An entry [False] belongs to an offset in progress. *)
Lemma entry_in_progress e calls self (i : nat) :
  tracks e calls self → completed self !! i = Some (Some false) →
  e + Z.of_nat i ∈ in_progress calls.
Proof.
  intros (_ & _ & Hentries & _) Hi. apply Hentries in Hi.
  unfold status in Hi. destruct (decide (_ ∈ added calls)) as [Hin|]; [|done].
  injection Hi as Hi. symmetry in Hi. apply bool_decide_eq_false in Hi.
  by apply list_elem_of_filter.
Qed.

Lemma value_tracks e calls self :
  tracks e calls self →
  value self = match in_progress calls with
               | o :: _ => o
               | [] => next_offset e calls
               end
  ∧ ∀ o, o ∈ in_progress calls → value self ≤ o.
Proof.
  intros Htracks.
  pose proof Htracks as (Hepoch & Hlen & Hentries & Hbounds & Hsorted & _).
  unfold value, index_False.
  destruct (list_find _ (completed self)) as [[i c]|] eqn:Hfind; simpl.
  - apply list_find_Some in Hfind as (Hi & -> & Hfirst).
    assert (∀ o, o ∈ in_progress calls → epoch self + Z.of_nat i ≤ o) as Hmin.
    { intros o (j & -> & Hj)%(in_progress_entry e _ self); [|done].
      destruct (decide (j < i)%nat) as [Hlt|]; [|lia].
      by destruct (Hfirst j _ Hj Hlt). }
    split; [|done].
    pose proof (entry_in_progress e calls self i Htracks Hi) as Hin.
    rewrite Hepoch in *.
    pose proof (StronglySorted_filter Z.lt (λ o, o ∉ removed calls) _ Hsorted) as Hsort.
    fold (in_progress calls) in Hsort.
    destruct (in_progress calls) as [|h rest]; [by apply elem_of_nil in Hin|].
    apply elem_of_cons in Hin as [->|Hin]; [done|].
    apply StronglySorted_cons in Hsort as [Hh _].
    eapply Forall_forall in Hh; [|done].
    specialize (Hmin h ltac:(by left)). lia.
  - apply list_find_None in Hfind.
    assert (in_progress calls = []) as ->.
    { destruct (in_progress calls) as [|h rest] eqn:Hprog; [done|]. exfalso.
      destruct (in_progress_entry e calls self h Htracks) as (j & _ & Hj).
      { rewrite Hprog. by left. }
      eapply Forall_lookup in Hfind; [|done]. done. }
    split; [lia|]. by intros o Ho%elem_of_nil.
Qed.

(** C8: on a tracker that went through a history of [add] and [remove]
    calls without an exception (then the offsets were added in strictly
    increasing order and none was removed twice), [value] is the earliest
    offset added and not yet removed: the first of them in call order and
    the least of them; when there is none it is one past the last offset
    added, and the epoch when nothing was added.  And [add] raises for an
    offset that is not above every offset added before. *)
Theorem C8_value_is_earliest_in_progress (e : Z) (calls : list Call) (self : t) :
  run calls (__init__ e) = Returns self →
  (StronglySorted Z.lt (added calls) ∧ NoDup (removed calls))
  ∧ value self = match in_progress calls with
                 | o :: _ => o
                 | [] => match last (added calls) with
                         | Some o => o + 1
                         | None => e
                         end
                 end
  ∧ (∀ o, o ∈ in_progress calls → value self ≤ o)
  ∧ (∀ o p, p ∈ added calls → o ≤ p →
       add self o = Raises (ValueError "offset must move monotonically")).
Proof.
  intros Htracks%run_tracks.
  pose proof Htracks as (Hepoch & Hlen & _ & Hbounds & Hsorted & Hnodup & _).
  split; [done|].
  destruct (value_tracks e calls self Htracks) as [Hvalue Hmin].
  split; [done|]. split; [done|].
  intros o p Hp%Hbounds Hle. unfold add, __get_index.
  rewrite bool_decide_eq_false_2; [done|]. lia.
Qed.

End OffsetTrackerFacts.

(** * The formatter and the tracker on concrete inputs *)

(** C1 as stated fails: a null literal with the alias [n], formatted in a
    fresh context, comes out as [(NULL AS n)] under both strategies, and the
    alias is registered. *)
Lemma C1_null_literal_alias_is_rendered :
  Clickhouse.visit_literal Canonical (mkLiteral (Some "n") VNone) ∅
    = (Returns "(NULL AS n)", {["n"]})
  ∧ Clickhouse.visit_literal Anonymized (mkLiteral (Some "n") VNone) ∅
    = (Returns "(NULL AS n)", {["n"]})
  ∧ "(NULL AS n)" ≠ "NULL"
  ∧ is_alias_present "n"
      (Clickhouse.visit_literal Anonymized (mkLiteral (Some "n") VNone) ∅).2 = true.
Proof. repeat split; done. Qed.

(** C2 as stated fails: an [or] call with the alias [x] comes out as
    [(a OR b)], without [AS x], and [x] is not registered. *)
Lemma C2_or_alias_is_dropped :
  Clickhouse.format Canonical 2
    (FunctionCall (Some "x") "or"
       [Column (mkColumn None None "a"); Column (mkColumn None None "b")]) ∅
    = (Returns "(a OR b)", ∅)
  ∧ "(a OR b)" ≠ "((a OR b) AS x)"
  ∧ is_alias_present "x"
      (Clickhouse.format Canonical 2
         (FunctionCall (Some "x") "or"
            [Column (mkColumn None None "a"); Column (mkColumn None None "b")]) ∅).2 = false.
Proof. repeat split; done. Qed.

(** C3 as stated fails: the anonymized formatter returns the bare token for
    an aliased number, where the canonical one binds the alias. *)
Lemma C3_anonymized_literal_alias_is_dropped :
  Clickhouse.visit_literal Anonymized (mkLiteral (Some "n") (VInt 1)) ∅ = (Returns "$N", ∅)
  ∧ Clickhouse.visit_literal Canonical (mkLiteral (Some "n") (VInt 1)) ∅
    = (Returns "(1 AS n)", {["n"]})
  ∧ "$N" ≠ "($N AS n)"
  ∧ is_alias_present "n"
      (Clickhouse.visit_literal Anonymized (mkLiteral (Some "n") (VInt 1)) ∅).2 = false.
Proof. repeat split; done. Qed.

Lemma C3_literal_alias_by_strategy_witness :
  kind_of (VStr "O'Reilly") = Some KString
  ∧ Clickhouse.visit_literal Anonymized (mkLiteral (Some "who") (VStr "O'Reilly")) ∅
    = (Returns "$S", ∅)
  ∧ Clickhouse.visit_literal Canonical (mkLiteral (Some "who") (VStr "O'Reilly")) ∅
    = (Returns "('O\'Reilly' AS who)", {["who"]}).
Proof.
  split; [reflexivity|].
  exact (@C3_literal_alias_by_strategy Clickhouse.escaping
           (VStr "O'Reilly") KString (Some "who") ∅ eq_refl).
Defined.

Lemma C4_alias_bound_once_witness :
  "x" ≠ "" ∧ is_alias_present "x" ∅ = false
  ∧ (∃ outs ctx',
      Clickhouse.bind_all
        [("a + b", Some "x"); ("c", Some "y"); ("a + b", Some "x"); ("d", Some "x")] ∅
      = (Returns outs, ctx')
      ∧ outs !! 0%nat = Some "(a + b AS x)"
      ∧ outs !! 2%nat = Some "x"
      ∧ outs !! 3%nat = Some "x"
      ∧ "x" ∈ ctx').
Proof.
  assert ("x" ≠ "") as Hne by done.
  assert ("x" ∉ (∅ : gset string)) as Hfresh by apply not_elem_of_empty.
  split; [done|]. split; [done|].
  destruct (@C4_alias_bound_once Clickhouse.escaping
              [("a + b", Some "x"); ("c", Some "y"); ("a + b", Some "x"); ("d", Some "x")]
              "x" ∅ Hne Hfresh) as (outs & ctx' & Hrun & Hspec).
  exists outs, ctx'. split; [exact Hrun|].
  split; [exact (proj1 (Hspec 0%nat "a + b" eq_refl))|].
  split; [exact (proj1 (Hspec 2%nat "a + b" eq_refl))|].
  split; [exact (proj1 (Hspec 3%nat "d" eq_refl))|].
  exact (proj2 (proj2 (proj2 (Hspec 0%nat "a + b" eq_refl)))).
Defined.

Lemma C5_and_chain_flattened_witness :
  [(Some "x", Column (mkColumn None None "b")); (None, Column (mkColumn None None "c"));
   (Some "y", Column (mkColumn None None "d"))] ≠ []
  ∧ Clickhouse.format Canonical 2
      (and_chain (Column (mkColumn None None "a"))
         [(Some "x", Column (mkColumn None None "b"));
          (None, Column (mkColumn None None "c"));
          (Some "y", Column (mkColumn None None "d"))]) ∅
    = (Returns "a AND b AND c AND d", ∅).
Proof.
  split; [done|].
  exact (@C5_and_chain_flattened Clickhouse.escaping Canonical
           (Column (mkColumn None None "a"))
           [(Some "x", Column (mkColumn None None "b"));
            (None, Column (mkColumn None None "c"));
            (Some "y", Column (mkColumn None None "d"))]
           1%nat ∅ ltac:(done) eq_refl ltac:(repeat constructor)).
Defined.

Lemma C6_column_self_alias_suppressed_witness :
  col_alias (mkColumn (Some "events.foo") (Some "events") "foo")
    = Some (qualified_reference (mkColumn (Some "events.foo") (Some "events") "foo"))
  ∧ Clickhouse.visit_column (mkColumn (Some "events.foo") (Some "events") "foo") ∅
    = (Returns "events.foo", ∅)
  ∧ Clickhouse.format Anonymized 1
      (Column (mkColumn (Some "events.foo") (Some "events") "foo")) ∅
    = (Returns "events.foo", ∅).
Proof.
  split; [reflexivity|].
  exact (@C6_column_self_alias_suppressed Clickhouse.escaping Anonymized
           (mkColumn (Some "events.foo") (Some "events") "foo") ∅ 0%nat eq_refl).
Defined.

Lemma C7_anonymized_ignores_literal_values_witness :
  one_literal_differs
    (FunctionCall (Some "x") "equals"
       [Column (mkColumn None None "user"); Literal (mkLiteral (Some "who") (VStr "alice"))])
    (FunctionCall (Some "x") "equals"
       [Column (mkColumn None None "user"); Literal (mkLiteral (Some "who") (VStr "bob"))])
  ∧ Clickhouse.format Anonymized 2
      (FunctionCall (Some "x") "equals"
         [Column (mkColumn None None "user"); Literal (mkLiteral (Some "who") (VStr "alice"))]) ∅
    = Clickhouse.format Anonymized 2
        (FunctionCall (Some "x") "equals"
           [Column (mkColumn None None "user"); Literal (mkLiteral (Some "who") (VStr "bob"))]) ∅.
Proof.
  assert (one_literal_differs
    (FunctionCall (Some "x") "equals"
       [Column (mkColumn None None "user"); Literal (mkLiteral (Some "who") (VStr "alice"))])
    (FunctionCall (Some "x") "equals"
       [Column (mkColumn None None "user"); Literal (mkLiteral (Some "who") (VStr "bob"))]))
    as Hdiff.
  { apply (old_parameter (Some "x") "equals" [Column (mkColumn None None "user")] _ _ []).
    apply old_here. by exists KString. }
  split; [exact Hdiff|].
  exact (proj1 (@C7_anonymized_ignores_literal_values Clickhouse.escaping _ _ 2%nat ∅ Hdiff)).
Defined.

Lemma C9_unexpected_literal_raises_witness :
  VOther "decimal.Decimal" ≠ VNone
  ∧ kind_of (VOther "decimal.Decimal") = None
  ∧ ∃ type_name,
      VOther "decimal.Decimal" = VOther type_name
      ∧ Clickhouse.visit_literal Anonymized (mkLiteral (Some "n") (VOther "decimal.Decimal")) ∅
        = (Raises (ValueError ("Unexpected literal type <class '" +:+ type_name +:+ "'>")), ∅)
      ∧ Clickhouse.format Anonymized 1
          (Literal (mkLiteral (Some "n") (VOther "decimal.Decimal"))) ∅
        = (Raises (ValueError ("Unexpected literal type <class '" +:+ type_name +:+ "'>")), ∅).
Proof.
  assert (VOther "decimal.Decimal" ≠ VNone) as Hne by done.
  split; [done|]. split; [reflexivity|].
  exact (@C9_unexpected_literal_raises Clickhouse.escaping Anonymized (Some "n")
           (VOther "decimal.Decimal") ∅ 0%nat Hne eq_refl).
Defined.

Lemma C8_value_is_earliest_in_progress_witness :
  OffsetTracker.run
    [OffsetTracker.Add 12; OffsetTracker.Add 15; OffsetTracker.Add 16; OffsetTracker.Remove 12]
    (OffsetTracker.__init__ 10)
  = Returns (OffsetTracker.mk 10 [None; None; Some true; None; None; Some false; Some false])
  ∧ OffsetTracker.value
      (OffsetTracker.mk 10 [None; None; Some true; None; None; Some false; Some false]) = 15
  ∧ OffsetTracker.add
      (OffsetTracker.mk 10 [None; None; Some true; None; None; Some false; Some false]) 16
    = Raises (ValueError "offset must move monotonically").
Proof.
  split; [reflexivity|].
  destruct (C8_value_is_earliest_in_progress 10
              [OffsetTracker.Add 12; OffsetTracker.Add 15; OffsetTracker.Add 16;
               OffsetTracker.Remove 12]
              (OffsetTracker.mk 10 [None; None; Some true; None; None; Some false; Some false])
              eq_refl) as (_ & Hvalue & _ & Hadd).
  split; [exact Hvalue|].
  apply (Hadd 16 16); [|lia]. repeat constructor.
Defined.

(** ** The renderings the specification gives as examples *)

Example or_inside_and :
  Clickhouse.format Canonical 3
    (FunctionCall None "and"
       [FunctionCall None "or"
          [Column (mkColumn None None "a"); Column (mkColumn None None "b")];
        Column (mkColumn None None "c")]) ∅
  = (Returns "(a OR b) AND c", ∅).
Proof. reflexivity. Qed.

Example array_in_brackets :
  Clickhouse.format Canonical 2
    (FunctionCall None "array"
       [Literal (mkLiteral None (VInt 1)); Literal (mkLiteral None (VInt 2));
        Literal (mkLiteral None (VInt 3))]) ∅
  = (Returns "[1, 2, 3]", ∅).
Proof. reflexivity. Qed.

Example string_literal_escaped :
  Clickhouse.format Canonical 1 (Literal (mkLiteral None (VStr "O'Reilly\"))) ∅
  = (Returns "'O\'Reilly\\'", ∅).
Proof. reflexivity. Qed.

Example datetime_truncated :
  Clickhouse.format Canonical 1
    (Literal (mkLiteral None
       (VDatetime (mkDatetime (mkDate 2021 5 1) 12 30 45 987000 (Some 120))))) ∅
  = (Returns "toDateTime('2021-05-01T12:30:45', 'Universal')", ∅).
Proof. reflexivity. Qed.

Example column_self_alias :
  Clickhouse.format Canonical 1 (Column (mkColumn (Some "foo") None "foo")) ∅
  = (Returns "foo", ∅).
Proof. reflexivity. Qed.

Example alias_bound_once_across_a_tree :
  (Clickhouse.format Canonical 3
     (FunctionCall None "plus"
        [FunctionCall (Some "x") "f" [Column (mkColumn None None "a")];
         FunctionCall (Some "x") "f" [Column (mkColumn None None "a")]]) ∅).1
  = Returns "plus((f(a) AS x), x)".
Proof. reflexivity. Qed.

Example tracker_remove_at_the_end_of_the_list :
  OffsetTracker.run [OffsetTracker.Add 12; OffsetTracker.Remove 13] (OffsetTracker.__init__ 10)
  = Raises (IndexError "list index out of range").
Proof. reflexivity. Qed.

#[local] Set Warnings "-clear-no-such-hyp".

(** * More on the offset tracker *)

Section OffsetTrackerHistories.

Import OffsetTracker.

Lemma in_progress_snoc_add calls o :
  o ∉ removed calls → in_progress (calls ++ [Add o]) = in_progress calls ++ [o].
Proof.
  intros Ho. unfold in_progress. rewrite added_snoc_add, removed_snoc_add, filter_app.
  by rewrite (filter_cons_True _ o []).
Qed.

Lemma in_progress_snoc_remove calls o :
  in_progress (calls ++ [Remove o]) = filter (λ x, x ≠ o) (in_progress calls).
Proof.
  unfold in_progress. rewrite added_snoc_remove, removed_snoc_remove, list_filter_filter.
  apply list_filter_iff. intros x. rewrite elem_of_app, list_elem_of_singleton. tauto.
Qed.

Lemma in_progress_sorted e calls self :
  tracks e calls self → StronglySorted Z.lt (in_progress calls).
Proof.
  intros (_ & _ & _ & _ & Hsorted & _). by apply StronglySorted_filter.
Qed.

Lemma sorted_lt_NoDup (l : list Z) : StronglySorted Z.lt l → NoDup l.
Proof.
  induction 1 as [|x l _ IH Hx]; constructor; [|done].
  intros Hin. eapply Forall_forall in Hx; [|done]. lia.
Qed.

Lemma sorted_lt_same_elements (l1 l2 : list Z) :
  StronglySorted Z.lt l1 → StronglySorted Z.lt l2 → (∀ x, x ∈ l1 ↔ x ∈ l2) → l1 = l2.
Proof.
  intros H1 H2 Hsame. apply (StronglySorted_unique_strong Z.lt); [|done|done|].
  - intros x1 x2 _ _ ? ?. lia.
  - apply NoDup_Permutation; auto using sorted_lt_NoDup.
Qed.

(** The offsets [__iter__] yields from a list whose first entry stands for
    the offset [base]: increasing, and exactly those of the entries [False]. *)
Lemma iter_entries (base : Z) (k : nat) (l : list (option bool)) :
  let yielded :=
    omap (λ '(i, c), if bool_decide (c = Some false) then Some (base + Z.of_nat i) else None)
         (imap (λ i c, ((k + i)%nat, c)) l) in
  StronglySorted Z.lt yielded
  ∧ (∀ o, o ∈ yielded ↔
          ∃ i : nat, l !! i = Some (Some false) ∧ o = base + Z.of_nat (k + i))
  ∧ length yielded = length (filter (λ c, c = Some false) l).
Proof.
  revert k. induction l as [|c l IH]; intros k; simpl.
  { split; [constructor|]. split; [|done]. intros o. split; [by intros ?%elem_of_nil|].
    by intros (i & ? & _). }
  rewrite (imap_ext _ (λ i c', ((S k + i)%nat, c'))) by (intros; simpl; f_equal; lia).
  destruct (IH (S k)) as (Hsorted & Helems & Hlen). clear IH.
  assert (∀ o,
    (∃ i : nat, (c :: l) !! i = Some (Some false) ∧ o = base + Z.of_nat (k + i))
    ↔ (c = Some false ∧ o = base + Z.of_nat (k + 0))
      ∨ ∃ i : nat, l !! i = Some (Some false) ∧ o = base + Z.of_nat (S k + i)) as Hsplit.
  { intros o. split.
    - intros ([|i] & Hi & ->); simpl in Hi.
      + left. by simplify_eq.
      + right. exists i. split; [done|]. lia.
    - intros [[-> ->]|(i & Hi & ->)]; [by exists 0%nat|].
      exists (S i). split; [done|]. lia. }
  rewrite filter_cons. case_bool_decide as Hc.
  - rewrite decide_True by done. split; [|split].
    + constructor; [done|]. apply Forall_forall.
      intros o (i & _ & ->)%Helems. lia.
    + intros o. rewrite elem_of_cons, Helems, Hsplit.
      replace (k + 0)%nat with k by lia. tauto.
    + cbn [length]. f_equal. exact Hlen.
  - rewrite decide_False by done. split; [done|]. split; [|done].
    intros o. rewrite Helems, Hsplit. tauto.
Qed.

Lemma iter_len_tracks (e : Z) (calls : list Call) (self : t) :
  tracks e calls self →
  __iter__ self = in_progress calls
  ∧ __len__ self = length (in_progress calls)
  ∧ StronglySorted Z.lt (__iter__ self).
Proof.
  intros Htracks.
  pose proof Htracks as (Hepoch & _).
  destruct (iter_entries (epoch self) 0 (completed self)) as (Hsorted & Helems & Hlen).
  simpl in *. fold (__iter__ self) in *. fold (__len__ self) in Hlen.
  assert (__iter__ self = in_progress calls) as Heq.
  { apply sorted_lt_same_elements; [done | by eapply in_progress_sorted|].
    intros o. rewrite Helems, Hepoch. split.
    - intros (i & Hi & ->). by eapply entry_in_progress.
    - intros (i & -> & Hi)%(in_progress_entry e _ self); [|done]. by exists i. }
  split; [done|]. split; [|done]. by rewrite <- Hlen, Heq.
Qed.

(** X1: iterating over a tracker yields exactly the offsets in progress, in
    increasing order, and [__len__] is their number. *)
Theorem X1_iter_and_len_are_in_progress (e : Z) (calls : list Call) (self : t) :
  run calls (__init__ e) = Returns self →
  __iter__ self = in_progress calls
  ∧ __len__ self = length (in_progress calls)
  ∧ StronglySorted Z.lt (__iter__ self).
Proof. intros Htracks%run_tracks. by eapply iter_len_tracks. Qed.

Lemma next_offset_ge_epoch e calls self : tracks e calls self → e ≤ next_offset e calls.
Proof. intros (_ & Hlen & _). lia. Qed.

Lemma removed_below_next e calls self o :
  tracks e calls self → next_offset e calls ≤ o → o ∉ removed calls.
Proof.
  intros (_ & _ & _ & Hbounds & _ & _ & Hsub) Hle Hin%Hsub%Hbounds. lia.
Qed.

(** X2: what [remove] does, offset by offset.  It succeeds exactly on an
    offset in progress.  Below the epoch and more than one past the last
    offset added it raises [ValueError] for the range; exactly one past the
    last offset added (the epoch, on a new tracker) the range test lets the
    offset through and the list access raises [IndexError]; on an offset in
    range that was skipped or is already removed it raises [ValueError]. *)
Theorem X2_remove_outcome (e : Z) (calls : list Call) (self : t) (o : Z) :
  run calls (__init__ e) = Returns self →
  remove self o =
    if bool_decide (o < e ∨ next_offset e calls < o)
    then Raises (ValueError "offset out of range")
    else if bool_decide (o = next_offset e calls)
    then Raises (IndexError "list index out of range")
    else if bool_decide (o ∈ in_progress calls)
    then Returns (mk e (<[Z.to_nat (o - e) := Some true]> (completed self)))
    else Raises (ValueError "offset is already untracked").
Proof.
  intros Htracks%run_tracks.
  pose proof Htracks as (Hepoch & Hlen & Hentries & Hbounds & _).
  unfold remove, __get_index. rewrite Hepoch.
  destruct (decide (o < e ∨ next_offset e calls < o)) as [Hrange|Hrange].
  { rewrite (bool_decide_eq_true_2 (o < e ∨ _)) by done.
    destruct (negb _ || _)%bool eqn:Htest; [done|]. exfalso.
    apply orb_false_iff in Htest as [Hlo Hhi].
    apply negb_false_iff, bool_decide_eq_true in Hlo. apply bool_decide_eq_false in Hhi. lia. }
  rewrite (bool_decide_eq_false_2 (o < e ∨ _)) by done.
  rewrite orb_false_intro;
    [|apply negb_false_iff, bool_decide_eq_true; lia | apply bool_decide_eq_false; lia].
  destruct (decide (o = next_offset e calls)) as [Hnext|Hnext].
  { rewrite (bool_decide_eq_true_2 (o = _)) by done.
    rewrite lookup_ge_None_2; [done|]. lia. }
  rewrite (bool_decide_eq_false_2 (o = _)) by done.
  destruct (lookup_lt_is_Some_2 (completed self) (Z.to_nat (o - e))) as [c Hc]; [lia|].
  rewrite Hc. pose proof (Hentries _ _ Hc) as Hstatus.
  replace (e + Z.of_nat (Z.to_nat (o - e))) with o in Hstatus by lia.
  destruct (decide (o ∈ in_progress calls)) as [Hprog|Hprog].
  - rewrite (bool_decide_eq_true_2 (o ∈ _)) by done.
    destruct (in_progress_entry e calls self o Htracks Hprog) as (i & Hi & Hentry).
    assert (Z.to_nat (o - e) = i) as Hidx by lia. rewrite Hidx in Hc.
    rewrite Hentry in Hc. injection Hc as <-. done.
  - rewrite (bool_decide_eq_false_2 (o ∈ _)) by done.
    rewrite bool_decide_eq_false_2; [done|]. intros ->. apply Hprog.
    replace o with (e + Z.of_nat (Z.to_nat (o - e))) by lia.
    by eapply entry_in_progress.
Qed.

(** X3: what [add] does.  It raises for every offset below the next one
    expected (one past the last offset added; the epoch on a new tracker) and
    succeeds for every other one, whatever the gap.  The new offset is then
    the last one in progress, and [value] moves only if nothing was in
    progress, and then to the new offset. *)
Theorem X3_add_outcome (e : Z) (calls : list Call) (self : t) (o : Z) :
  run calls (__init__ e) = Returns self →
  e ≤ next_offset e calls
  ∧ if bool_decide (next_offset e calls ≤ o)
    then ∃ self',
           add self o = Returns self'
           ∧ run (calls ++ [Add o]) (__init__ e) = Returns self'
           ∧ in_progress (calls ++ [Add o]) = in_progress calls ++ [o]
           ∧ value self' = match in_progress calls with
                           | [] => o
                           | _ :: _ => value self
                           end
    else add self o = Raises (ValueError "offset must move monotonically").
Proof.
  intros Hrun. pose proof (run_tracks _ _ _ Hrun) as Htracks.
  pose proof Htracks as (Hepoch & Hlen & _).
  split; [by eapply next_offset_ge_epoch|].
  case_bool_decide as Hnext.
  2:{ unfold add, __get_index. rewrite bool_decide_eq_false_2; [done|]. lia. }
  destruct (add self o) as [self'|err] eqn:Hadd.
  2:{ unfold add, __get_index in Hadd. rewrite bool_decide_eq_true_2 in Hadd by lia. done. }
  exists self'. split; [done|].
  destruct (add_tracks e calls self o self' Htracks Hadd) as [_ Htracks'].
  split; [by rewrite run_snoc, Hrun|].
  assert (in_progress (calls ++ [Add o]) = in_progress calls ++ [o]) as Hprog.
  { apply in_progress_snoc_add. by eapply removed_below_next. }
  split; [done|].
  destruct (value_tracks _ _ _ Htracks) as [Hvalue _].
  destruct (value_tracks _ _ _ Htracks') as [Hvalue' _].
  rewrite Hprog in Hvalue'. rewrite Hvalue', Hvalue.
  by destruct (in_progress calls).
Qed.

Lemma value_bounds e calls self :
  tracks e calls self → e ≤ value self ≤ next_offset e calls.
Proof.
  intros Htracks. pose proof Htracks as (_ & Hlen & _ & Hbounds & _).
  destruct (value_tracks _ _ _ Htracks) as [Hvalue _].
  destruct (in_progress calls) as [|h rest] eqn:Hprog; [lia|].
  assert (h ∈ in_progress calls) as [_ Hh%Hbounds]%list_elem_of_filter
    by (rewrite Hprog; by left).
  lia.
Qed.

Lemma call_value_le e calls self c self' :
  tracks e calls self → call self c = Returns self' →
  tracks e (calls ++ [c]) self' ∧ value self ≤ value self'.
Proof.
  intros Htracks Hcall.
  destruct (value_tracks _ _ _ Htracks) as [Hvalue Hmin].
  destruct c as [o|o]; simpl in Hcall.
  - destruct (add_tracks _ _ _ _ _ Htracks Hcall) as [Hnext Htracks']. split; [done|].
    destruct (value_tracks _ _ _ Htracks') as [Hvalue' _].
    rewrite in_progress_snoc_add in Hvalue' by (by eapply removed_below_next).
    destruct (in_progress calls); simpl in Hvalue'; lia.
  - destruct (remove_tracks _ _ _ _ _ Htracks Hcall) as [Hprog Htracks']. split; [done|].
    destruct (value_tracks _ _ _ Htracks') as [Hvalue' _].
    rewrite in_progress_snoc_remove, next_offset_snoc_remove in Hvalue'.
    destruct (filter _ (in_progress calls)) as [|h rest] eqn:Hfilter.
    + pose proof (value_bounds _ _ _ Htracks). lia.
    + apply Hmin. assert (h ∈ filter (λ x, x ≠ o) (in_progress calls)) as Hh
        by (rewrite Hfilter; by left).
      apply list_elem_of_filter in Hh as [_ Hh]. by subst.
Qed.

(** X4: [value] never moves back.  Along any history that runs without an
    exception, the committable offset after more calls is at least what it
    was before them. *)
Theorem X4_value_never_decreases (e : Z) (calls more : list Call) (before after : t) :
  run calls (__init__ e) = Returns before →
  run (calls ++ more) (__init__ e) = Returns after →
  value before ≤ value after.
Proof.
  intros Hbefore. revert after.
  induction more as [|c more IH] using rev_ind; intros after Hafter.
  { rewrite app_nil_r, Hbefore in Hafter. injection Hafter as <-. lia. }
  rewrite app_assoc, run_snoc in Hafter.
  destruct (run (calls ++ more) (__init__ e)) as [mid|err] eqn:Hmid; [|done].
  specialize (IH mid eq_refl).
  destruct (call_value_le e (calls ++ more) mid c after (run_tracks _ _ _ Hmid) Hafter)
    as [_ Hle].
  lia.
Qed.

(** X5: [value] is safe to commit.  It lies between the epoch and one past
    the last offset added, and every offset added below it has been
    removed. *)
Theorem X5_value_is_safe (e : Z) (calls : list Call) (self : t) (o : Z) :
  run calls (__init__ e) = Returns self →
  e ≤ value self ≤ next_offset e calls
  ∧ (o ∈ added calls → o < value self → o ∈ removed calls).
Proof.
  intros Htracks%run_tracks. split; [by eapply value_bounds|].
  intros Hadded Hlt. destruct (decide (o ∈ removed calls)) as [|Hnot]; [done|].
  destruct (value_tracks _ _ _ Htracks) as [_ Hmin].
  assert (o ∈ in_progress calls) as Hprog%Hmin by (by apply list_elem_of_filter).
  lia.
Qed.

Lemma length_filter_remove (l : list Z) (o : Z) :
  NoDup l → o ∈ l → S (length (filter (λ x, x ≠ o) l)) = length l.
Proof.
  induction 1 as [|x l Hx _ IH]; [by intros ?%elem_of_nil|].
  intros [->|Hin]%elem_of_cons.
  - rewrite filter_cons_False by (by intros ?). simpl. f_equal.
    clear IH. induction l as [|y l IHl]; [done|].
    apply not_elem_of_cons in Hx as [Hne Hx].
    rewrite filter_cons_True by done. simpl. f_equal. by apply IHl.
  - assert (x ≠ o) as Hne by (by intros ->).
    rewrite filter_cons_True by done. simpl. f_equal. by apply IH.
Qed.

(** X17: every [add] that succeeds raises the number of offsets in progress
    by one, and every [remove] that succeeds lowers it by one. *)
Theorem X17_len_counts_calls (e : Z) (calls : list Call) (self self' : t) (c : Call) :
  run calls (__init__ e) = Returns self →
  call self c = Returns self' →
  match c with
  | Add _ => __len__ self' = S (__len__ self)
  | Remove _ => S (__len__ self') = __len__ self
  end.
Proof.
  intros Htracks%run_tracks Hcall.
  destruct (iter_len_tracks _ _ _ Htracks) as (_ & Hlen & _).
  destruct c as [o|o]; simpl in Hcall.
  - destruct (add_tracks _ _ _ _ _ Htracks Hcall) as [Hnext Htracks'].
    destruct (iter_len_tracks _ _ _ Htracks') as (_ & Hlen' & _).
    rewrite Hlen', Hlen, in_progress_snoc_add by (by eapply removed_below_next).
    rewrite length_app. simpl. lia.
  - destruct (remove_tracks _ _ _ _ _ Htracks Hcall) as [Hprog Htracks'].
    destruct (iter_len_tracks _ _ _ Htracks') as (_ & Hlen' & _).
    rewrite Hlen', Hlen, in_progress_snoc_remove.
    apply length_filter_remove; [|done].
    apply sorted_lt_NoDup. by eapply in_progress_sorted.
Qed.

End OffsetTrackerHistories.

(** * More on the formatter *)

(** What holds of a condition and is passed on from a binary call to its two
    sides holds of every operand the flattener returns. *)
Lemma flatten_hereditary (Q : Expression → Prop) function exp :
  (∀ a f lhs rhs, Q (FunctionCall a f [lhs; rhs]) → Q lhs ∧ Q rhs) →
  Q exp → ∀ x, x ∈ get_first_level_conditions function exp → Q x.
Proof.
  intros Hstep.
  induction exp as [l|c|a c k|a f ps IHps|a int ps _ _|a n|a ps body _]
    using Expression_tree_ind; intros HQ x Hx;
    try (by apply list_elem_of_singleton in Hx as ->).
  destruct (is_binary function (FunctionCall a f ps)) eqn:Hbin.
  2:{ rewrite flatten_opaque in Hx by done. by apply list_elem_of_singleton in Hx as ->. }
  destruct ps as [|lhs [|rhs [|? ?]]]; try done.
  simpl in Hbin. apply bool_decide_eq_true in Hbin as ->.
  rewrite flatten_binary in Hx.
  inversion IHps as [|? ? IHl IHrest]; subst. inversion IHrest as [|? ? IHr _]; subst.
  destruct (Hstep _ _ _ _ HQ) as [HQl HQr].
  apply elem_of_app in Hx as [Hx|Hx]; [by apply IHl | by apply IHr].
Qed.

Lemma aliases_parameter (p : Expression) (ps : list Expression) :
  p ∈ ps → aliases p ⊆ ⋃ (map aliases ps).
Proof.
  intros Hp a Ha. apply elem_of_union_list. exists (aliases p). split; [|done].
  apply (list_elem_of_fmap_2 aliases _ _ Hp).
Qed.

Lemma flatten_aliases function exp x :
  x ∈ get_first_level_conditions function exp → aliases x ⊆ aliases exp.
Proof.
  intros Hx.
  apply (flatten_hereditary (λ e, aliases e ⊆ aliases exp) function exp); [|done|done].
  intros a f lhs rhs Hsub. cbn [aliases] in Hsub.
  pose proof (aliases_parameter lhs [lhs; rhs] ltac:(by left)).
  pose proof (aliases_parameter rhs [lhs; rhs] ltac:(by right; left)).
  split; set_solver.
Qed.

Lemma within_mono {A} (S S' : gset string) (m : Fmt A) :
  S ⊆ S' → within S m → within S' m.
Proof. intros HS Hm ctx. destruct (Hm ctx). split; set_solver. Qed.

Lemma within_pure {A} (S : gset string) (a : A) : within S (pure a).
Proof. intros ctx. simpl. split; set_solver. Qed.

Lemma within_raise {A} (S : gset string) (e : Exception) : within S (@raise A e).
Proof. intros ctx. simpl. split; set_solver. Qed.

Lemma within_andThen {A B} (S : gset string) (m : Fmt A) (k : A → Fmt B) :
  within S m → (∀ a, within S (k a)) → within S (andThen m k).
Proof.
  intros Hm Hk ctx. unfold andThen. destruct (Hm ctx) as [H1 H2].
  destruct (m ctx) as [[a|e] ctx1]; simpl in *; [|done].
  destruct (Hk a ctx1) as [H3 H4]. split; set_solver.
Qed.

Lemma within_for_each {A B} (S : gset string) (f : A → Fmt B) (xs : list A) :
  (∀ x, x ∈ xs → within S (f x)) → within S (for_each f xs).
Proof.
  induction xs as [|x xs IH]; intros Hxs; simpl; [apply within_pure|].
  apply within_andThen; [apply Hxs; by left|]. intros y.
  apply within_andThen; [|intros; apply within_pure].
  apply IH. intros x' Hx'. apply Hxs. by right.
Qed.

Section FormatterContext.

Context {escaping : Escaping}.

Lemma within_alias (S : gset string) text alias :
  alias_set alias ⊆ S → within S (_alias text alias).
Proof.
  intros HS ctx. rewrite _alias_cases.
  destruct alias as [a|]; simpl in *; [|set_solver].
  repeat case_bool_decide; simpl; set_solver.
Qed.

Lemma within_visit_literal (S : gset string) s exp :
  alias_set (lit_alias exp) ⊆ S → within S (visit_literal (formatter s) exp).
Proof.
  intros HS. destruct exp as [alias v]. unfold visit_literal; simpl in *.
  destruct s, v as [|[]| | | | | |]; simpl;
    first [by apply within_alias | apply within_pure | apply within_raise].
Qed.

Lemma within_visit_column (S : gset string) exp :
  alias_set (col_alias exp) ⊆ S → within S (visit_column exp).
Proof.
  intros HS. unfold visit_column. case_bool_decide; [by apply within_alias | apply within_pure].
Qed.

Lemma within_accept s depth exp : within (aliases exp) (accept (formatter s) depth exp).
Proof.
  revert exp. induction depth as [|depth IH]; intros exp; [apply within_raise|].
  assert (∀ S ps, ⋃ (map aliases ps) ⊆ S →
            within S (visit_params (accept (formatter s) depth) ps)) as Hparams.
  { intros S ps HS. unfold visit_params.
    apply within_andThen; [|intros; apply within_pure].
    apply within_for_each. intros p Hp. eapply within_mono; [|apply IH].
    pose proof (aliases_parameter p ps Hp). set_solver. }
  assert (∀ function e, within (aliases e)
            (for_each (accept (formatter s) depth) (get_first_level_conditions function e)))
    as Hflat.
  { intros function e. apply within_for_each. intros x Hx.
    eapply within_mono; [by eapply flatten_aliases | apply IH]. }
  destruct exp as [l|c|a c k|a f ps|a int ps|a n|a ps body]; cbn [accept aliases].
  - by apply within_visit_literal.
  - by apply within_visit_column.
  - unfold visit_subscriptable_reference.
    apply within_andThen; [apply within_visit_column; set_solver|]. intros col.
    apply within_andThen; [apply within_visit_literal; set_solver|].
    intros; apply within_pure.
  - unfold visit_function_call. repeat case_bool_decide.
    + apply within_andThen; [apply Hparams; set_solver|].
      intros; apply within_alias; set_solver.
    + apply within_andThen; [apply (Hflat _ (FunctionCall a f ps)) | intros; apply within_pure].
    + apply within_andThen; [apply (Hflat _ (FunctionCall a f ps)) | intros; apply within_pure].
    + apply within_andThen; [apply Hparams; set_solver|].
      intros; apply within_alias; set_solver.
  - unfold visit_curried_function_call.
    apply within_andThen; [eapply within_mono; [|apply IH]; set_solver|]. intros int_func.
    apply within_andThen; [apply Hparams; set_solver|].
    intros; apply within_alias; set_solver.
  - apply within_pure.
  - unfold visit_lambda.
    apply within_andThen; [eapply within_mono; [|apply IH]; set_solver|].
    intros; apply within_alias; set_solver.
Qed.

End FormatterContext.

(** ** Trees that always format *)

Lemma for_each_returns {A B} (f : A → Fmt B) (xs : list A) (ctx : ParsingContext) :
  (∀ x ctx', x ∈ xs → ∃ y ctx'', f x ctx' = (Returns y, ctx'')) →
  ∃ ys ctx', for_each f xs ctx = (Returns ys, ctx').
Proof.
  revert ctx. induction xs as [|x xs IH]; intros ctx Hxs; [by eexists _, _|].
  destruct (Hxs x ctx ltac:(by left)) as (y & ctx1 & Hx).
  destruct (IH ctx1) as (ys & ctx2 & Hrest).
  { intros x' ctx' Hx'. apply Hxs. by right. }
  exists (y :: ys), ctx2. by eapply for_each_cons_returns.
Qed.

Lemma andThen_returns {A B} (m : Fmt A) (k : A → Fmt B) (ctx : ParsingContext) :
  (∃ a ctx', m ctx = (Returns a, ctx')) →
  (∀ a ctx', ∃ b ctx'', k a ctx' = (Returns b, ctx'')) →
  ∃ b ctx', andThen m k ctx = (Returns b, ctx').
Proof.
  intros (a & ctx1 & Hm) Hk. unfold andThen. rewrite Hm. apply Hk.
Qed.

Lemma flatten_recognized function exp x :
  x ∈ get_first_level_conditions function exp →
  recognized_literals exp = true → recognized_literals x = true.
Proof.
  intros Hx Hexp.
  apply (flatten_hereditary (λ e, recognized_literals e = true) function exp); [|done|done].
  intros a f lhs rhs Hcall. simpl in Hcall.
  apply andb_prop in Hcall as [Hl Hr]. apply andb_prop in Hr as [Hr _]. done.
Qed.

Section FormatterReturns.

Context {escaping : Escaping}.

Lemma _alias_is_returns text alias ctx :
  ∃ out ctx', _alias text alias ctx = (Returns out, ctx').
Proof.
  rewrite _alias_cases. destruct alias; repeat case_bool_decide; by eexists _, _.
Qed.

Lemma visit_literal_returns s exp ctx :
  recognized (lit_value exp) = true →
  ∃ out ctx', visit_literal (formatter s) exp ctx = (Returns out, ctx').
Proof.
  destruct exp as [alias v]. unfold visit_literal; simpl.
  destruct s, v as [|[]| | | | | |]; simpl; intros Hv;
    first [done | apply _alias_is_returns | by eexists _, _].
Qed.

Lemma visit_column_returns exp ctx :
  ∃ out ctx', visit_column exp ctx = (Returns out, ctx').
Proof.
  unfold visit_column. case_bool_decide; [apply _alias_is_returns | by eexists _, _].
Qed.

Lemma accept_returns s depth exp ctx :
  binary_conditions exp = true → recognized_literals exp = true →
  (height exp ≤ depth)%nat →
  ∃ text ctx', accept (formatter s) depth exp ctx = (Returns text, ctx').
Proof.
  revert exp ctx. induction depth as [|depth IH]; intros exp ctx Hbin Hrec Hheight.
  { destruct exp; simpl in Hheight; lia. }
  assert (∀ ps ctx', forallb binary_conditions ps = true →
            forallb recognized_literals ps = true →
            (max_list_with height ps ≤ depth)%nat →
            ∃ out ctx'', visit_params (accept (formatter s) depth) ps ctx' = (Returns out, ctx''))
    as Hparams.
  { intros ps ctx' Hb Hr Hmax. unfold visit_params.
    apply andThen_returns; [|intros; by eexists _, _].
    apply for_each_returns. intros x ctx'' Hx.
    apply Is_true_true_2, forallb_True in Hb. apply Is_true_true_2, forallb_True in Hr.
    apply IH.
    - eapply Forall_forall in Hb; [|done]. by apply Is_true_true_1.
    - eapply Forall_forall in Hr; [|done]. by apply Is_true_true_1.
    - pose proof (max_list_with_ge height x ps Hx). lia. }
  assert (∀ function a f ps ctx',
            binary_conditions (FunctionCall a f ps) = true →
            recognized_literals (FunctionCall a f ps) = true →
            (height (FunctionCall a f ps) ≤ S depth)%nat →
            is_binary function (FunctionCall a f ps) = true →
            ∃ out ctx'', for_each (accept (formatter s) depth)
                           (get_first_level_conditions function (FunctionCall a f ps)) ctx'
                         = (Returns out, ctx''))
    as Hflat.
  { intros function a f ps ctx' Hb Hr Hh Hcall. apply for_each_returns.
    intros x ctx'' Hx.
    destruct (flatten_operands _ _ _ Hx Hb) as (Hbx & _ & Hlt).
    apply IH; [done | by eapply flatten_recognized |]. specialize (Hlt Hcall). lia. }
  destruct exp as [l|c|a c k|a f ps|a int ps|a n|a ps body]; cbn [accept].
  - by apply visit_literal_returns.
  - apply visit_column_returns.
  - unfold visit_subscriptable_reference.
    apply andThen_returns; [apply visit_column_returns|]. intros col ctx1.
    apply andThen_returns; [by apply visit_literal_returns | intros; by eexists _, _].
  - pose proof Hbin as Hbin'. pose proof Hrec as Hrec'. pose proof Hheight as Hheight'.
    simpl in Hbin, Hrec, Hheight. apply andb_prop in Hbin as [Hbinary Hps].
    apply bool_decide_eq_true in Hbinary.
    unfold visit_function_call. repeat case_bool_decide.
    + apply andThen_returns; [apply Hparams; [done | done | lia]|].
      intros; apply _alias_is_returns.
    + apply andThen_returns; [|intros; by eexists _, _]. apply Hflat; try done.
      subst f. destruct ps as [|lhs [|rhs [|? ?]]]; try done; simpl in Hbinary;
        specialize (Hbinary ltac:(by left)); lia.
    + apply andThen_returns; [|intros; by eexists _, _]. apply Hflat; try done.
      subst f. destruct ps as [|lhs [|rhs [|? ?]]]; try done; simpl in Hbinary;
        specialize (Hbinary ltac:(by right)); lia.
    + apply andThen_returns; [apply Hparams; [done | done | lia]|].
      intros; apply _alias_is_returns.
  - simpl in Hbin, Hrec, Hheight.
    apply andb_prop in Hbin as [Hint Hps]. apply andb_prop in Hrec as [Hrint Hrps].
    unfold visit_curried_function_call.
    apply andThen_returns; [apply IH; [done | done | lia]|]. intros int_func ctx1.
    apply andThen_returns; [apply Hparams; [done | done | lia]|].
    intros; apply _alias_is_returns.
  - by eexists _, _.
  - simpl in Hbin, Hrec, Hheight. unfold visit_lambda.
    apply andThen_returns; [apply IH; [done | done | lia]|].
    intros; apply _alias_is_returns.
Qed.

(** X6: a tree in which every call of [and] or [or] has two parameters and
    every literal holds a value of a recognized kind always formats: under
    both strategies, from any context, once the call depth allowed is at
    least the height of the tree, the formatter returns a text. *)
Theorem X6_well_formed_tree_formats (s : Strategy) (depth : nat) (exp : Expression)
    (ctx : ParsingContext) :
  binary_conditions exp = true → recognized_literals exp = true →
  (height exp ≤ depth)%nat →
  ∃ text ctx', accept (formatter s) depth exp ctx = (Returns text, ctx').
Proof. apply accept_returns. Qed.

End FormatterReturns.

(** ** Formatting the same expression again *)

Lemma replays_pure {A B} (a : A) (b : B) : replays (pure a) (pure b).
Proof.
  intros ctx r ctx1 [= <- <-]. split; [done|]. intros ctx2 _. by exists (Returns b).
Qed.

Lemma replays_raise {A B} (e : Exception) : replays (@raise A e) (@raise B e).
Proof.
  intros ctx r ctx1 [= <- <-]. split; [done|]. intros ctx2 _. by exists (Raises e).
Qed.

Lemma replays_andThen {A A' B B'} (m : Fmt A) (m' : Fmt A') (k : A → Fmt B)
    (k' : A' → Fmt B') :
  replays m m' → (∀ a a', replays (k a) (k' a')) → replays (andThen m k) (andThen m' k').
Proof.
  intros Hm Hk ctx r ctx1 Hrun. unfold andThen in *.
  destruct (m ctx) as [[a|e] c1] eqn:Hmrun.
  - destruct (Hm _ _ _ Hmrun) as [Hsub1 Hagain1].
    destruct (Hagain1 c1) as ([a0|] & _ & Hag0); [done| |done].
    destruct (Hk a a0 _ _ _ Hrun) as [Hsub2 _].
    split; [set_solver|]. intros ctx2 Hctx2.
    destruct (Hagain1 ctx2) as ([a'|] & Hr2 & Hag); [set_solver| |done].
    rewrite Hr2. destruct (Hk a a' _ _ _ Hrun) as [_ Hagain2]. by apply Hagain2.
  - simplify_eq. destruct (Hm _ _ _ Hmrun) as [Hsub1 Hagain1]. split; [done|].
    intros ctx2 Hctx2. destruct (Hagain1 ctx2 Hctx2) as (r2 & Hr2 & Hag).
    destruct r2 as [|e']; [done|]. simpl in Hag. subst e'. rewrite Hr2.
    by exists (Raises e).
Qed.

Lemma replays_for_each {A B B'} (f : A → Fmt B) (f' : A → Fmt B') (xs : list A) :
  (∀ x, x ∈ xs → replays (f x) (f' x)) → replays (for_each f xs) (for_each f' xs).
Proof.
  induction xs as [|x xs IH]; intros Hxs; simpl; [apply replays_pure|].
  apply replays_andThen; [apply Hxs; by left|]. intros y y'.
  apply replays_andThen; [|intros; apply replays_pure].
  apply IH. intros x' Hx'. apply Hxs. by right.
Qed.

Section FormatterAgain.

Context {escaping : Escaping}.

Lemma replays_alias text text' alias : replays (_alias text alias) (_alias text' alias).
Proof.
  intros ctx r ctx1. rewrite _alias_cases.
  destruct alias as [a|].
  2:{ intros [= <- <-]. split; [done|]. intros ctx2 _. by exists (Returns text'). }
  case_bool_decide as Hempty.
  { intros [= <- <-]. split; [done|]. intros ctx2 _. exists (Returns text').
    rewrite _alias_cases. by rewrite bool_decide_eq_true_2. }
  case_bool_decide as Hin; intros [= <- <-].
  - split; [done|]. intros ctx2 Hctx2. exists (Returns (escape_alias a)).
    split; [|done]. apply _alias_bound; [done | set_solver].
  - split; [set_solver|]. intros ctx2 Hctx2. exists (Returns (escape_alias a)).
    split; [|done]. apply _alias_bound; [done | set_solver].
Qed.

Lemma replays_visit_literal s exp :
  replays (visit_literal (formatter s) exp) (visit_literal (formatter s) exp).
Proof.
  destruct exp as [alias v]. unfold visit_literal; simpl.
  destruct s, v as [|[]| | | | | |]; simpl;
    first [apply replays_alias | apply replays_pure | apply replays_raise].
Qed.

Lemma replays_visit_column exp : replays (visit_column exp) (visit_column exp).
Proof.
  unfold visit_column. case_bool_decide; [apply replays_alias | apply replays_pure].
Qed.

Lemma replays_accept s depth exp :
  replays (accept (formatter s) depth exp) (accept (formatter s) depth exp).
Proof.
  revert exp. induction depth as [|depth IH]; intros exp; [apply replays_raise|].
  assert (∀ ps, replays (visit_params (accept (formatter s) depth) ps)
                        (visit_params (accept (formatter s) depth) ps)) as Hparams.
  { intros ps. unfold visit_params.
    apply replays_andThen; [|intros; apply replays_pure].
    apply replays_for_each. intros; apply IH. }
  destruct exp as [l|c|a c k|a f ps|a int ps|a n|a ps body]; cbn [accept].
  - apply replays_visit_literal.
  - apply replays_visit_column.
  - unfold visit_subscriptable_reference.
    apply replays_andThen; [apply replays_visit_column|]. intros col col'.
    apply replays_andThen; [apply replays_visit_literal | intros; apply replays_pure].
  - unfold visit_function_call. repeat case_bool_decide.
    + apply replays_andThen; [apply Hparams | intros; apply replays_alias].
    + apply replays_andThen; [|intros; apply replays_pure].
      apply replays_for_each. intros; apply IH.
    + apply replays_andThen; [|intros; apply replays_pure].
      apply replays_for_each. intros; apply IH.
    + apply replays_andThen; [apply Hparams | intros; apply replays_alias].
  - unfold visit_curried_function_call.
    apply replays_andThen; [apply IH|]. intros int_func int_func'.
    apply replays_andThen; [apply Hparams | intros; apply replays_alias].
  - apply replays_pure.
  - unfold visit_lambda.
    apply replays_andThen; [apply IH | intros; apply replays_alias].
Qed.

Lemma binds_alias (a text : string) : a ≠ "" → binds a (_alias text (Some a)) id.
Proof.
  intros Hne ctx t ctx1. rewrite _alias_cases. rewrite bool_decide_eq_false_2 by done.
  case_bool_decide as Hin; intros [= <- <-]; simpl; [done|]. split; [set_solver | done].
Qed.

Lemma binds_andThen {A B} (a : string) (m : Fmt A) (k : A → Fmt B) (text : B → string) :
  (∀ ctx, ctx ⊆ (m ctx).2) → (∀ x, binds a (k x) text) → binds a (andThen m k) text.
Proof.
  intros Hm Hk ctx t ctx1 Hrun. unfold andThen in Hrun.
  pose proof (Hm ctx) as Hsub.
  destruct (m ctx) as [[x|e] c1]; [|done]. simpl in Hsub.
  destruct (Hk x _ _ _ Hrun) as [Hin Hbare]. split; [done|].
  intros Ha. apply Hbare. set_solver.
Qed.

Lemma binds_accept s depth exp a :
  bound_alias s exp = Some a → a ≠ "" → binds a (accept (formatter s) depth exp) id.
Proof.
  intros Hbound Hne. destruct depth as [|depth]; [by intros ctx t ctx1|].
  assert (∀ ps ctx, ctx ⊆ (visit_params (accept (formatter s) depth) ps ctx).2) as Hparams.
  { intros ps ctx. unfold visit_params.
    refine (proj1 (within_andThen (⋃ (map aliases ps)) _ _ _ _ ctx)).
    - apply within_for_each. intros p Hp. eapply within_mono; [|apply within_accept].
      by apply aliases_parameter.
    - intros; apply within_pure. }
  destruct exp as [[alias v]|c|ra c k|alias f ps|alias int ps|ra n|alias ps body];
    cbn [accept]; simpl in Hbound.
  - unfold visit_literal; simpl.
    destruct s, v as [|[]| | | | | |]; simplify_eq/=; by apply binds_alias.
  - unfold visit_column. rewrite join_column_ret_unescaped.
    case_bool_decide; [|done]. rewrite Hbound. by apply binds_alias.
  - done.
  - case_bool_decide as Hbool; [done|]. subst alias. unfold visit_function_call.
    repeat case_bool_decide; try (exfalso; apply Hbool; by auto).
    + apply binds_andThen; [apply Hparams | intros; by apply binds_alias].
    + apply binds_andThen; [apply Hparams | intros; by apply binds_alias].
  - subst alias. unfold visit_curried_function_call.
    apply binds_andThen; [intros ctx; apply within_accept|]. intros int_func.
    apply binds_andThen; [apply Hparams | intros; by apply binds_alias].
  - done.
  - subst alias. unfold visit_lambda.
    apply binds_andThen; [intros ctx; apply within_accept | intros; by apply binds_alias].
Qed.

(** X7: an expression that has formatted once formats again later in the
    same pass, from any context that holds what the first time left: it
    returns again, registers nothing new, and when its node hands a non-empty
    alias to the alias-binding routine, the text is the bare escaped alias. *)
Theorem X7_second_formatting_is_the_alias (s : Strategy) (depth : nat) (exp : Expression)
    (ctx ctx1 ctx2 : ParsingContext) (text : string) :
  accept (formatter s) depth exp ctx = (Returns text, ctx1) →
  ctx1 ⊆ ctx2 →
  ∃ text',
    accept (formatter s) depth exp ctx2 = (Returns text', ctx2)
    ∧ ∀ a, bound_alias s exp = Some a → a ≠ "" → text' = escape_alias a.
Proof.
  intros Hfirst Hsub.
  destruct (replays_accept s depth exp _ _ _ Hfirst) as [_ Hagain].
  destruct (Hagain ctx2 Hsub) as ([text'|] & Hsecond & Hag); [|done].
  exists text'. split; [done|]. intros a Hbound Hne.
  destruct (binds_accept s depth exp a Hbound Hne _ _ _ Hfirst) as [Hin _].
  destruct (binds_accept s depth exp a Hbound Hne _ _ _ Hsecond) as [_ Hbare].
  apply Hbare. set_solver.
Qed.

End FormatterAgain.

(** ** The two strategies side by side *)

Lemma for_each_ext_in {A B} (f g : A → Fmt B) xs ctx :
  (∀ x ctx', x ∈ xs → f x ctx' = g x ctx') → for_each f xs ctx = for_each g xs ctx.
Proof.
  revert ctx. induction xs as [|x xs IH]; intros ctx Hfg; simpl; [done|].
  unfold andThen. rewrite Hfg by (by left). destruct (g x ctx) as [[y|e] ctx1]; [|done].
  rewrite IH; [done|]. intros x' ctx' Hx'. apply Hfg. by right.
Qed.

Lemma flatten_literals_null function exp x :
  x ∈ get_first_level_conditions function exp →
  literals_null exp = true → literals_null x = true.
Proof.
  intros Hx Hexp.
  apply (flatten_hereditary (λ e, literals_null e = true) function exp); [|done|done].
  intros a f lhs rhs Hcall. simpl in Hcall.
  apply andb_prop in Hcall as [Hl Hr]. apply andb_prop in Hr as [Hr _]. done.
Qed.

Lemma for_each_stops {A B} (f : A → Fmt B) xs y zs ctx ts ctx1 e ctx2 :
  for_each f xs ctx = (Returns ts, ctx1) → f y ctx1 = (Raises e, ctx2) →
  for_each f (xs ++ y :: zs) ctx = (Raises e, ctx2).
Proof.
  revert ctx ts. induction xs as [|x xs IH]; intros ctx ts Hxs Hy.
  { injection Hxs as <- <-. cbn [app for_each]. unfold andThen. by rewrite Hy. }
  cbn [app for_each] in *. unfold andThen in *. destruct (f x ctx) as [[t|e'] c1]; [|done].
  destruct (for_each f xs c1) as [[ts'|e'] c2] eqn:Hrest; [|done].
  injection Hxs as <- <-. by rewrite (IH _ _ Hrest Hy).
Qed.

Section FormatterStrategies.

Context {escaping : Escaping}.

Lemma visit_literal_null_same exp ctx :
  is_null (lit_value exp) = true →
  visit_literal (formatter Canonical) exp ctx = visit_literal (formatter Anonymized) exp ctx.
Proof. destruct exp as [alias []]; done. Qed.

Lemma accept_null_same depth exp ctx :
  literals_null exp = true →
  accept (formatter Canonical) depth exp ctx = accept (formatter Anonymized) depth exp ctx.
Proof.
  revert exp ctx. induction depth as [|depth IH]; intros exp ctx Hnull; [done|].
  assert (∀ ps ctx', forallb literals_null ps = true →
            for_each (accept (formatter Canonical) depth) ps ctx'
            = for_each (accept (formatter Anonymized) depth) ps ctx') as IHs.
  { intros ps ctx' Hps. apply for_each_ext_in. intros x ctx'' Hx. apply IH.
    apply Is_true_true_2, forallb_True in Hps.
    eapply Forall_forall in Hps; [|done]. by apply Is_true_true_1. }
  assert (∀ function e ctx', literals_null e = true →
            for_each (accept (formatter Canonical) depth)
              (get_first_level_conditions function e) ctx'
            = for_each (accept (formatter Anonymized) depth)
                (get_first_level_conditions function e) ctx') as Hflat.
  { intros function e ctx' He. apply for_each_ext_in. intros x ctx'' Hx. apply IH.
    by eapply flatten_literals_null. }
  destruct exp as [l|c|a c k|a f ps|a int ps|a n|a ps body]; cbn [accept].
  - by apply visit_literal_null_same.
  - done.
  - unfold visit_subscriptable_reference. apply andThen_ext. intros col ctx1.
    unfold andThen. by rewrite visit_literal_null_same.
  - simpl in Hnull. unfold visit_function_call, visit_params.
    unfold get_first_level_and_conditions, get_first_level_or_conditions.
    repeat case_bool_decide; unfold andThen.
    + by rewrite IHs.
    + by rewrite (Hflat _ (FunctionCall a f ps)).
    + by rewrite (Hflat _ (FunctionCall a f ps)).
    + by rewrite IHs.
  - simpl in Hnull. apply andb_prop in Hnull as [Hint Hps].
    unfold visit_curried_function_call, visit_params, andThen.
    rewrite IH by done. destruct (accept _ depth int ctx) as [[int_func|e] ctx1]; [|done].
    by rewrite IHs.
  - done.
  - simpl in Hnull. unfold visit_lambda, andThen. by rewrite IH.
Qed.

(** X8: the two strategies differ on non-null literals only.  On a tree all
    of whose literals are null, the canonical and the anonymized formatter
    return the same text and leave the same context. *)
Theorem X8_strategies_agree_without_literal_values (depth : nat) (exp : Expression)
    (ctx : ParsingContext) :
  literals_null exp = true →
  accept (formatter Canonical) depth exp ctx = accept (formatter Anonymized) depth exp ctx.
Proof. apply accept_null_same. Qed.

(** X9: an unexpected literal among the parameters of a function call ends
    the formatting of the call there.  The parameters before it have been
    formatted and what they registered stays in the context; the parameters
    after it are not visited, and the alias of the call is not registered. *)
Theorem X9_unexpected_parameter_aborts_call (s : Strategy) (depth : nat)
    (alias literal_alias : option string) (function_name type_name : string)
    (before after : list Expression) (ctx ctx1 : ParsingContext) (texts : list string) :
  function_name ≠ BooleanFunctions.AND → function_name ≠ BooleanFunctions.OR →
  for_each (accept (formatter s) (S depth)) before ctx = (Returns texts, ctx1) →
  accept (formatter s) (S (S depth))
    (FunctionCall alias function_name
       (before ++ Literal (mkLiteral literal_alias (VOther type_name)) :: after)) ctx
  = (Raises (ValueError ("Unexpected literal type <class '" +:+ type_name +:+ "'>")), ctx1).
Proof.
  intros Hand Hor Hbefore.
  assert (for_each (accept (formatter s) (S depth))
            (before ++ Literal (mkLiteral literal_alias (VOther type_name)) :: after) ctx
          = (Raises (ValueError ("Unexpected literal type <class '" +:+ type_name +:+ "'>")),
             ctx1)) as Hstop.
  { eapply for_each_stops; [done|]. by destruct s. }
  change (accept (formatter s) (S (S depth)) (FunctionCall alias function_name ?ps) ctx)
    with (visit_function_call (accept (formatter s) (S depth)) alias function_name ps ctx).
  unfold visit_function_call, visit_params.
  rewrite (bool_decide_eq_false_2 (function_name = BooleanFunctions.AND)) by done.
  rewrite (bool_decide_eq_false_2 (function_name = BooleanFunctions.OR)) by done.
  case_bool_decide; unfold andThen; by rewrite Hstop.
Qed.

(** X10: the anonymized rendering is a function of the tree with its literal
    values blanked: two trees that differ in the values of any number of
    literals, each within its kind, render the same and leave the same
    context. *)
Theorem X10_anonymized_depends_on_blank_tree (e1 e2 : Expression) (depth : nat)
    (ctx : ParsingContext) :
  blank e1 = blank e2 →
  accept (formatter Anonymized) depth e1 ctx = accept (formatter Anonymized) depth e2 ctx.
Proof.
  intros Hblank. rewrite <- (accept_blank depth e1), <- (accept_blank depth e2).
  by rewrite Hblank.
Qed.

(** X11: the canonical formatter renders a datetime to the second and without
    its timezone: two datetime literals with the same date, hour, minute and
    second render the same, whatever their microseconds and offsets. *)
Theorem X11_datetime_rendered_to_the_second (d1 d2 : PyDatetime) (alias : option string)
    (ctx : ParsingContext) :
  dt_date d1 = dt_date d2 → hour d1 = hour d2 → minute d1 = minute d2 →
  second d1 = second d2 →
  visit_literal (formatter Canonical) (mkLiteral alias (VDatetime d1)) ctx
  = visit_literal (formatter Canonical) (mkLiteral alias (VDatetime d2)) ctx.
Proof.
  intros Hdate Hhour Hminute Hsecond. unfold visit_literal; simpl.
  assert (replace_naive_seconds d1 = replace_naive_seconds d2) as ->; [|done].
  unfold replace_naive_seconds. by rewrite Hdate, Hhour, Hminute, Hsecond.
Qed.

End FormatterStrategies.

(** ** The part of the context a tree depends on *)

Lemma frame_mono {A} (S S' : gset string) (m : Fmt A) : S ⊆ S' → frame S m → frame S' m.
Proof.
  intros HS Hm ctx ctx' Hsame.
  destruct (Hm ctx ctx') as (Hout & added & Hadded & H1 & H2).
  { intros a Ha. apply Hsame. set_solver. }
  split; [done|]. exists added. split; [set_solver | done].
Qed.

Lemma frame_pure {A} (S : gset string) (a : A) : frame S (pure a).
Proof.
  intros ctx ctx' _. split; [done|]. exists ∅. simpl. split; [done|]. split; set_solver.
Qed.

Lemma frame_raise {A} (S : gset string) (e : Exception) : frame S (@raise A e).
Proof.
  intros ctx ctx' _. split; [done|]. exists ∅. simpl. split; [done|]. split; set_solver.
Qed.

Lemma frame_andThen {A B} (S : gset string) (m : Fmt A) (k : A → Fmt B) :
  frame S m → (∀ a, frame S (k a)) → frame S (andThen m k).
Proof.
  intros Hm Hk ctx ctx' Hsame. unfold andThen.
  destruct (Hm ctx ctx' Hsame) as (Hout & added & Hadded & H1 & H2).
  destruct (m ctx) as [[a|e] c1], (m ctx') as [[a'|e'] c1']; simplify_eq/=.
  - destruct (Hk a' (ctx ∪ added) (ctx' ∪ added)) as (Hout2 & added2 & Hadded2 & H3 & H4).
    { intros x Hx. specialize (Hsame x Hx). set_solver. }
    split; [done|]. exists (added ∪ added2). split; [set_solver|].
    rewrite H3, H4. split; set_solver.
  - split; [done|]. by exists added.
Qed.

Lemma frame_for_each {A B} (S : gset string) (f : A → Fmt B) (xs : list A) :
  (∀ x, x ∈ xs → frame S (f x)) → frame S (for_each f xs).
Proof.
  induction xs as [|x xs IH]; intros Hxs; simpl; [apply frame_pure|].
  apply frame_andThen; [apply Hxs; by left|]. intros y.
  apply frame_andThen; [|intros; apply frame_pure].
  apply IH. intros x' Hx'. apply Hxs. by right.
Qed.

Section FormatterFrame.

Context {escaping : Escaping}.

Lemma frame_alias (S : gset string) text alias :
  alias_set alias ⊆ S → frame S (_alias text alias).
Proof.
  intros HS ctx ctx' Hsame. rewrite !_alias_cases.
  destruct alias as [a|]; simpl in HS.
  2:{ split; [done|]. exists ∅. simpl. split; [done|]. split; set_solver. }
  case_bool_decide as Hempty.
  { split; [done|]. exists ∅. simpl. split; [done|]. split; set_solver. }
  assert (a ∈ ctx ↔ a ∈ ctx') as Ha by (apply Hsame; set_solver).
  destruct (decide (a ∈ ctx)) as [Hin|Hout].
  - rewrite !bool_decide_eq_true_2 by tauto.
    split; [done|]. exists ∅. simpl. split; [done|]. split; set_solver.
  - rewrite !bool_decide_eq_false_2 by tauto.
    split; [done|]. exists {[a]}. simpl. split; [done|]. split; set_solver.
Qed.

Lemma frame_visit_literal (S : gset string) s exp :
  alias_set (lit_alias exp) ⊆ S → frame S (visit_literal (formatter s) exp).
Proof.
  intros HS. destruct exp as [alias v]. unfold visit_literal; simpl in *.
  destruct s, v as [|[]| | | | | |]; simpl;
    first [by apply frame_alias | apply frame_pure | apply frame_raise].
Qed.

Lemma frame_visit_column (S : gset string) exp :
  alias_set (col_alias exp) ⊆ S → frame S (visit_column exp).
Proof.
  intros HS. unfold visit_column. case_bool_decide; [by apply frame_alias | apply frame_pure].
Qed.

Lemma frame_accept s depth exp : frame (aliases exp) (accept (formatter s) depth exp).
Proof.
  revert exp. induction depth as [|depth IH]; intros exp; [apply frame_raise|].
  assert (∀ S ps, ⋃ (map aliases ps) ⊆ S →
            frame S (visit_params (accept (formatter s) depth) ps)) as Hparams.
  { intros S ps HS. unfold visit_params.
    apply frame_andThen; [|intros; apply frame_pure].
    apply frame_for_each. intros p Hp. eapply frame_mono; [|apply IH].
    pose proof (aliases_parameter p ps Hp). set_solver. }
  assert (∀ function e, frame (aliases e)
            (for_each (accept (formatter s) depth) (get_first_level_conditions function e)))
    as Hflat.
  { intros function e. apply frame_for_each. intros x Hx.
    eapply frame_mono; [by eapply flatten_aliases | apply IH]. }
  destruct exp as [l|c|a c k|a f ps|a int ps|a n|a ps body]; cbn [accept aliases].
  - by apply frame_visit_literal.
  - by apply frame_visit_column.
  - unfold visit_subscriptable_reference.
    apply frame_andThen; [apply frame_visit_column; set_solver|]. intros col.
    apply frame_andThen; [apply frame_visit_literal; set_solver|].
    intros; apply frame_pure.
  - unfold visit_function_call. repeat case_bool_decide.
    + apply frame_andThen; [apply Hparams; set_solver|].
      intros; apply frame_alias; set_solver.
    + apply frame_andThen; [apply (Hflat _ (FunctionCall a f ps)) | intros; apply frame_pure].
    + apply frame_andThen; [apply (Hflat _ (FunctionCall a f ps)) | intros; apply frame_pure].
    + apply frame_andThen; [apply Hparams; set_solver|].
      intros; apply frame_alias; set_solver.
  - unfold visit_curried_function_call.
    apply frame_andThen; [eapply frame_mono; [|apply IH]; set_solver|]. intros int_func.
    apply frame_andThen; [apply Hparams; set_solver|].
    intros; apply frame_alias; set_solver.
  - apply frame_pure.
  - unfold visit_lambda.
    apply frame_andThen; [eapply frame_mono; [|apply IH]; set_solver|].
    intros; apply frame_alias; set_solver.
Qed.

(** X12: of the context, only the aliases of the tree matter.  From two
    contexts that hold the same aliases of the tree, formatting ends the same
    way (the same text, or the same exception) and adds the same aliases to
    both. *)
Theorem X12_only_the_aliases_of_the_tree_matter (s : Strategy) (depth : nat)
    (exp : Expression) (ctx ctx' : ParsingContext) :
  (∀ a, a ∈ aliases exp → a ∈ ctx ↔ a ∈ ctx') →
  (accept (formatter s) depth exp ctx).1 = (accept (formatter s) depth exp ctx').1
  ∧ ∃ added,
      added ⊆ aliases exp
      ∧ (accept (formatter s) depth exp ctx).2 = ctx ∪ added
      ∧ (accept (formatter s) depth exp ctx').2 = ctx' ∪ added.
Proof. apply frame_accept. Qed.

End FormatterFrame.

(** * Properties of the row writer *)

Section WriterFacts.

Import Writer.

Lemma dict_get_key (event : dict) (key : string) :
  key ∈ keys event → ∃ v, dict_get event key = Some v.
Proof.
  unfold keys. induction event as [|[k v] event IH]; simpl; [by intros ?%elem_of_nil|].
  intros [->|Hin]%elem_of_cons.
  - exists v. by rewrite decide_True.
  - destruct (decide (k = key)); [by exists v | by apply IH].
Qed.

(** The loop stops at the first key with the prefix. *)
Lemma sibling_array_first (prefix : string) (event : dict) (event_keys : list string) :
  sibling_array prefix event event_keys
  = match filter (λ key, startswith key prefix = true) event_keys with
    | [] => Done (PList [])
    | key :: _ =>
        match dict_item event key with
        | Done v =>
            match py_len v with
            | Done n => Done (PList (replicate n PNone))
            | Raised e => Raised e
            end
        | Raised e => Raised e
        end
    end.
Proof.
  induction event_keys as [|key rest IH]; [done|].
  simpl. rewrite filter_cons. destruct (startswith key prefix) eqn:Hstart.
  - by rewrite decide_True.
  - by rewrite decide_False.
Qed.

Lemma is_None_absent (event : dict) (colname : string) :
  is_None (default PNone (dict_get event colname)) = true ↔ absent event colname.
Proof.
  unfold absent. destruct (dict_get event colname) as [[]|]; simpl; split; try done;
    try (by intros [|]); auto.
Qed.

Lemma column_value_present (event : dict) (colname : string) (v : PyValue) :
  dict_get event colname = Some v → v ≠ PNone → column_value event colname = Done v.
Proof.
  intros Hget Hv. unfold column_value. rewrite Hget. simpl. by destruct v.
Qed.

Lemma column_value_plain (event : dict) (colname : string) :
  absent event colname → has_dot colname = false → column_value event colname = Done PNone.
Proof.
  intros Habsent Hdot. unfold column_value. rewrite Hdot, andb_false_r.
  by destruct Habsent as [-> | ->].
Qed.

Lemma column_value_nested (event : dict) (colname : string) :
  absent event colname → has_dot colname = true →
  column_value event colname
  = match siblings event colname with
    | [] => Done (PList [])
    | key :: _ =>
        match dict_get event key with
        | Some v =>
            match py_len v with
            | Done n => Done (PList (replicate n PNone))
            | Raised e => Raised e
            end
        | None => Raised (KeyError key)
        end
    end.
Proof.
  intros Habsent%is_None_absent Hdot. unfold column_value. rewrite Habsent, Hdot. simpl.
  unfold _create_missing_array, siblings, has_dot in *.
  destruct (before_dot colname) as [prefix|]; [|done].
  rewrite sibling_array_first. destruct (filter _ _) as [|key rest]; [done|].
  unfold dict_item. by destruct (dict_get event key).
Qed.

Lemma sibling_is_key (event : dict) (colname key : string) :
  key ∈ siblings event colname → key ∈ keys event.
Proof.
  unfold siblings. destruct (before_dot colname); [|by intros ?%elem_of_nil].
  by intros [_ ?]%list_elem_of_filter.
Qed.

(** Column by column: the row holds the value of each column, in order. *)
Lemma row_columns (event : dict) (columns : list string) (row : list PyValue) :
  row_from_processed_event event columns = Done row →
  length row = length columns
  ∧ ∀ (i : nat) colname, columns !! i = Some colname →
      ∃ v, column_value event colname = Done v ∧ row !! i = Some v.
Proof.
  revert row. induction columns as [|c columns IH]; intros row Hrow; simpl in Hrow.
  { simplify_eq. split; [done|]. by intros i colname ?. }
  destruct (column_value event c) as [value|] eqn:Hc; [|done].
  destruct (row_from_processed_event event columns) as [values|]; [|done].
  simplify_eq. destruct (IH values eq_refl) as [Hlen Hcols].
  split; [simpl; by rewrite Hlen|].
  intros [|i] colname Hi; simpl in Hi.
  - simplify_eq. by exists value.
  - by apply Hcols.
Qed.

Lemma row_done_iff (event : dict) (columns : list string) :
  (∃ row, row_from_processed_event event columns = Done row)
  ↔ ∀ colname, colname ∈ columns → ∃ v, column_value event colname = Done v.
Proof.
  induction columns as [|c columns IH]; simpl.
  { split; [by intros _ colname ?%elem_of_nil | by eexists]. }
  split.
  - intros [row Hrow] colname Hin.
    destruct (column_value event c) as [value|] eqn:Hc; [|done].
    destruct (row_from_processed_event event columns) as [values|]; [|done].
    apply elem_of_cons in Hin as [->|Hin]; [by exists value|].
    apply IH; [by eexists | done].
  - intros Hall. destruct (Hall c) as [value ->]; [by left|].
    destruct (proj2 IH) as [values ->]; [|by eexists].
    intros colname Hin. apply Hall. by right.
Qed.

Lemma row_raised (event : dict) (columns : list string) (e : Exception) :
  row_from_processed_event event columns = Raised e →
  ∃ colname, colname ∈ columns ∧ column_value event colname = Raised e.
Proof.
  induction columns as [|c columns IH]; simpl; [done|].
  destruct (column_value event c) as [value|e'] eqn:Hc.
  - destruct (row_from_processed_event event columns) as [values|e']; [done|].
    intros [= ->]. destruct (IH eq_refl) as (colname & Hin & Hraised).
    exists colname. split; [by right | done].
  - intros [= ->]. exists c. split; [by left | done].
Qed.

(** X13: when it returns, [row_from_processed_event] gives one value per
    column, in the order of the columns.  A value the event holds and that is
    not [None] is passed through as it is; a column without a dot in its name
    that the event lacks, or holds as [None], gives [None]. *)
Theorem X13_row_follows_columns (event : dict) (columns : list string)
    (row : list PyValue) (i : nat) (colname : string) :
  row_from_processed_event event columns = Done row →
  columns !! i = Some colname →
  length row = length columns
  ∧ (∀ v, dict_get event colname = Some v → v ≠ PNone → row !! i = Some v)
  ∧ (absent event colname → has_dot colname = false → row !! i = Some PNone).
Proof.
  intros [Hlen Hcols]%row_columns Hi. split; [done|].
  destruct (Hcols i colname Hi) as (v & Hv & Hrow). split.
  - intros v' Hget Hne. rewrite (column_value_present _ _ _ Hget Hne) in Hv. by simplify_eq.
  - intros Habsent Hdot. rewrite (column_value_plain _ _ Habsent Hdot) in Hv. by simplify_eq.
Qed.


Lemma py_len_sized (v : PyValue) : (∃ n, py_len v = Done n) ↔ sized v = true.
Proof. destruct v; simpl; split; try done; try (by intros [? ?]); by eexists. Qed.

Lemma column_value_done_iff (event : dict) (colname : string) :
  (∃ v, column_value event colname = Done v)
  ↔ (absent event colname → has_dot colname = true →
     ∀ key rest v, siblings event colname = key :: rest →
       dict_get event key = Some v → sized v = true).
Proof.
  destruct (is_None (default PNone (dict_get event colname))) eqn:Hnone.
  2:{ split; [|intros _].
      - intros _ Habsent%is_None_absent. congruence.
      - unfold column_value. rewrite Hnone. simpl. by eexists. }
  apply is_None_absent in Hnone.
  destruct (has_dot colname) eqn:Hdot.
  2:{ split; [by intros _ _ ?|]. intros _. rewrite column_value_plain by done. by eexists. }
  rewrite column_value_nested by done.
  destruct (siblings event colname) as [|key rest] eqn:Hsib.
  { split; [by intros _ _ _ ? ? ? ?|]. intros _. by eexists. }
  destruct (dict_get_key event key) as [v Hv].
  { eapply sibling_is_key. rewrite Hsib. by left. }
  rewrite Hv. split.
  - intros [w Hw] _ _ key' rest' v' [= <- <-] Hv'. rewrite Hv in Hv'. injection Hv' as <-.
    apply py_len_sized. destruct (py_len v) as [n|]; [by exists n | done].
  - intros Hsized. specialize (Hsized Hnone eq_refl key rest v eq_refl Hv).
    apply py_len_sized in Hsized as [n ->]. by eexists.
Qed.

Lemma row_returns_iff (event : dict) (columns : list string) :
  (∃ row, row_from_processed_event event columns = Done row)
  ↔ ∀ colname, colname ∈ columns →
      absent event colname → has_dot colname = true →
      ∀ key rest v, siblings event colname = key :: rest →
        dict_get event key = Some v → sized v = true.
Proof.
  rewrite row_done_iff. split.
  - intros Hall colname Hin. by apply column_value_done_iff, Hall.
  - intros Hall colname Hin. apply column_value_done_iff. by apply Hall.
Qed.

(** X15: [row_from_processed_event] returns exactly when every column it has
    to fill can be filled: for each column with a dot in its name that the
    event lacks or holds as [None], the first key of the event with the
    column's prefix, if there is one, holds a value that has a length (a
    list, a string or a dict). *)
Theorem X15_row_returns_iff_siblings_sized (event : dict) (columns : list string) :
  (∃ row, row_from_processed_event event columns = Done row)
  ↔ ∀ colname, colname ∈ columns →
      absent event colname → has_dot colname = true →
      ∀ key rest v, siblings event colname = key :: rest →
        dict_get event key = Some v → sized v = true.
Proof. apply row_returns_iff. Qed.

(** X16: the only exception [row_from_processed_event] raises is the
    [TypeError] of [len()].  It raises it, in particular, for a column with a
    dot in its name that the event holds as [None] under a key that comes
    before every other key with the same prefix: the column is then its own
    first sibling. *)
Theorem X16_row_raises_only_TypeError (event : dict) (columns : list string) :
  (∀ e, row_from_processed_event event columns = Raised e → ∃ msg, e = TypeError msg)
  ∧ ∀ colname rest,
      colname ∈ columns → dict_get event colname = Some PNone →
      siblings event colname = colname :: rest →
      ∃ msg, row_from_processed_event event columns = Raised (TypeError msg).
Proof.
  assert (∀ e, row_from_processed_event event columns = Raised e → ∃ msg, e = TypeError msg)
    as Honly.
  { intros e (colname & _ & Hraised)%row_raised.
    unfold column_value in Hraised.
    destruct (is_None _ && has_dot colname)%bool eqn:Hfill; [|done].
    apply andb_prop in Hfill as [Habsent%is_None_absent Hdot].
    assert (column_value event colname = Raised e) as Hvalue.
    { unfold column_value. rewrite (proj2 (is_None_absent _ _) Habsent), Hdot. done. }
    rewrite column_value_nested in Hvalue by done.
    destruct (siblings event colname) as [|key rest] eqn:Hsib; [done|].
    destruct (dict_get_key event key) as [v Hv].
    { eapply sibling_is_key. rewrite Hsib. by left. }
    rewrite Hv in Hvalue. destruct v; simpl in Hvalue; simplify_eq; by eexists. }
  split; [done|].
  intros colname rest Hin Hget Hsib.
  destruct (row_from_processed_event event columns) as [row|e] eqn:Hrow.
  - exfalso.
    assert (has_dot colname = true) as Hdot.
    { unfold siblings, has_dot in *. by destruct (before_dot colname). }
    pose proof (proj1 (row_returns_iff event columns) ltac:(by exists row)
                  colname Hin ltac:(by right) Hdot colname rest PNone Hsib Hget).
    done.
  - destruct (Honly e eq_refl) as [msg ->]. by exists msg.
Qed.

End WriterFacts.

(** * The further properties on concrete inputs *)

Lemma X1_iter_and_len_are_in_progress_witness :
  OffsetTracker.run
    [OffsetTracker.Add 12; OffsetTracker.Add 15; OffsetTracker.Add 16; OffsetTracker.Remove 12]
    (OffsetTracker.__init__ 10)
  = Returns (OffsetTracker.mk 10 [None; None; Some true; None; None; Some false; Some false])
  ∧ OffsetTracker.__iter__
      (OffsetTracker.mk 10 [None; None; Some true; None; None; Some false; Some false])
    = [15; 16]
  ∧ OffsetTracker.__len__
      (OffsetTracker.mk 10 [None; None; Some true; None; None; Some false; Some false])
    = 2%nat.
Proof.
  split; [reflexivity|].
  destruct (X1_iter_and_len_are_in_progress 10
              [OffsetTracker.Add 12; OffsetTracker.Add 15; OffsetTracker.Add 16;
               OffsetTracker.Remove 12]
              (OffsetTracker.mk 10 [None; None; Some true; None; None; Some false; Some false])
              eq_refl) as (Hiter & Hlen & _).
  split; [exact Hiter | exact Hlen].
Defined.

Lemma X2_remove_outcome_witness :
  OffsetTracker.run
    [OffsetTracker.Add 12; OffsetTracker.Add 15; OffsetTracker.Add 16; OffsetTracker.Remove 12]
    (OffsetTracker.__init__ 10)
  = Returns (OffsetTracker.mk 10 [None; None; Some true; None; None; Some false; Some false])
  ∧ OffsetTracker.remove
      (OffsetTracker.mk 10 [None; None; Some true; None; None; Some false; Some false]) 17
    = Raises (IndexError "list index out of range")
  ∧ OffsetTracker.remove
      (OffsetTracker.mk 10 [None; None; Some true; None; None; Some false; Some false]) 13
    = Raises (ValueError "offset is already untracked").
Proof.
  split; [reflexivity|]. split.
  - exact (X2_remove_outcome 10
             [OffsetTracker.Add 12; OffsetTracker.Add 15; OffsetTracker.Add 16;
              OffsetTracker.Remove 12]
             (OffsetTracker.mk 10 [None; None; Some true; None; None; Some false; Some false])
             17 eq_refl).
  - exact (X2_remove_outcome 10
             [OffsetTracker.Add 12; OffsetTracker.Add 15; OffsetTracker.Add 16;
              OffsetTracker.Remove 12]
             (OffsetTracker.mk 10 [None; None; Some true; None; None; Some false; Some false])
             13 eq_refl).
Defined.

Lemma X3_add_outcome_witness :
  OffsetTracker.run [OffsetTracker.Add 12; OffsetTracker.Remove 12] (OffsetTracker.__init__ 10)
  = Returns (OffsetTracker.mk 10 [None; None; Some true])
  ∧ (∃ self',
       OffsetTracker.add (OffsetTracker.mk 10 [None; None; Some true]) 20 = Returns self'
       ∧ OffsetTracker.run
           ([OffsetTracker.Add 12; OffsetTracker.Remove 12] ++ [OffsetTracker.Add 20])
           (OffsetTracker.__init__ 10) = Returns self'
       ∧ OffsetTracker.in_progress
           ([OffsetTracker.Add 12; OffsetTracker.Remove 12] ++ [OffsetTracker.Add 20])
         = [20]
       ∧ OffsetTracker.value self' = 20).
Proof.
  split; [reflexivity|].
  exact (proj2 (X3_add_outcome 10 [OffsetTracker.Add 12; OffsetTracker.Remove 12]
                  (OffsetTracker.mk 10 [None; None; Some true]) 20 eq_refl)).
Defined.

Lemma X4_value_never_decreases_witness :
  OffsetTracker.run [OffsetTracker.Add 12; OffsetTracker.Add 15] (OffsetTracker.__init__ 10)
  = Returns (OffsetTracker.mk 10 [None; None; Some false; None; None; Some false])
  ∧ OffsetTracker.run
      ([OffsetTracker.Add 12; OffsetTracker.Add 15] ++ [OffsetTracker.Remove 12])
      (OffsetTracker.__init__ 10)
    = Returns (OffsetTracker.mk 10 [None; None; Some true; None; None; Some false])
  ∧ OffsetTracker.value (OffsetTracker.mk 10 [None; None; Some false; None; None; Some false])
    ≤ OffsetTracker.value (OffsetTracker.mk 10 [None; None; Some true; None; None; Some false]).
Proof.
  split; [reflexivity|]. split; [reflexivity|].
  exact (X4_value_never_decreases 10 [OffsetTracker.Add 12; OffsetTracker.Add 15]
           [OffsetTracker.Remove 12] _ _ eq_refl eq_refl).
Defined.

Lemma X5_value_is_safe_witness :
  OffsetTracker.run
    [OffsetTracker.Add 12; OffsetTracker.Add 15; OffsetTracker.Remove 12]
    (OffsetTracker.__init__ 10)
  = Returns (OffsetTracker.mk 10 [None; None; Some true; None; None; Some false])
  ∧ 10 ≤ OffsetTracker.value
           (OffsetTracker.mk 10 [None; None; Some true; None; None; Some false]) ≤ 16.
Proof.
  split; [reflexivity|].
  exact (proj1 (X5_value_is_safe 10
                  [OffsetTracker.Add 12; OffsetTracker.Add 15; OffsetTracker.Remove 12]
                  (OffsetTracker.mk 10 [None; None; Some true; None; None; Some false])
                  12 eq_refl)).
Defined.

Lemma X6_well_formed_tree_formats_witness :
  binary_conditions
    (FunctionCall (Some "x") "and"
       [Column (mkColumn None None "a");
        FunctionCall None "f" [Literal (mkLiteral (Some "n") (VInt 1))]]) = true
  ∧ ∃ text ctx',
      Clickhouse.format Canonical 3
        (FunctionCall (Some "x") "and"
           [Column (mkColumn None None "a");
            FunctionCall None "f" [Literal (mkLiteral (Some "n") (VInt 1))]]) ∅
      = (Returns text, ctx').
Proof.
  split; [reflexivity|].
  exact (@X6_well_formed_tree_formats Clickhouse.escaping Canonical 3%nat
           (FunctionCall (Some "x") "and"
              [Column (mkColumn None None "a");
               FunctionCall None "f" [Literal (mkLiteral (Some "n") (VInt 1))]])
           ∅ eq_refl eq_refl ltac:(simpl; lia)).
Defined.

Lemma X7_second_formatting_is_the_alias_witness :
  Clickhouse.format Canonical 2
    (FunctionCall (Some "x") "f" [Column (mkColumn None None "a")]) ∅
  = (Returns "(f(a) AS x)", {["x"]})
  ∧ ∃ text',
      Clickhouse.format Canonical 2
        (FunctionCall (Some "x") "f" [Column (mkColumn None None "a")]) {["x"]}
      = (Returns text', {["x"]})
      ∧ text' = "x".
Proof.
  assert (Clickhouse.format Canonical 2
            (FunctionCall (Some "x") "f" [Column (mkColumn None None "a")]) ∅
          = (Returns "(f(a) AS x)", {["x"]})) as Hfirst by reflexivity.
  split; [exact Hfirst|].
  destruct (@X7_second_formatting_is_the_alias Clickhouse.escaping Canonical 2%nat
              (FunctionCall (Some "x") "f" [Column (mkColumn None None "a")])
              ∅ {["x"]} {["x"]} "(f(a) AS x)" Hfirst ltac:(done))
    as (text' & Hsecond & Hbare).
  exists text'. split; [exact Hsecond|].
  exact (Hbare "x" eq_refl ltac:(done)).
Defined.

Lemma X8_strategies_agree_without_literal_values_witness :
  literals_null
    (FunctionCall (Some "x") "ifNull"
       [Column (mkColumn (Some "c") (Some "t") "col"); Literal (mkLiteral (Some "n") VNone)])
  = true
  ∧ Clickhouse.format Canonical 2
      (FunctionCall (Some "x") "ifNull"
         [Column (mkColumn (Some "c") (Some "t") "col"); Literal (mkLiteral (Some "n") VNone)]) ∅
    = Clickhouse.format Anonymized 2
        (FunctionCall (Some "x") "ifNull"
           [Column (mkColumn (Some "c") (Some "t") "col");
            Literal (mkLiteral (Some "n") VNone)]) ∅.
Proof.
  split; [reflexivity|].
  exact (@X8_strategies_agree_without_literal_values Clickhouse.escaping 2%nat
           (FunctionCall (Some "x") "ifNull"
              [Column (mkColumn (Some "c") (Some "t") "col");
               Literal (mkLiteral (Some "n") VNone)])
           ∅ eq_refl).
Defined.

Lemma X9_unexpected_parameter_aborts_call_witness :
  "f" ≠ BooleanFunctions.AND ∧ "f" ≠ BooleanFunctions.OR
  ∧ Clickhouse.format Canonical 2
      (FunctionCall (Some "x") "f"
         ([Column (mkColumn (Some "c") None "a")]
          ++ Literal (mkLiteral None (VOther "decimal.Decimal"))
             :: [Column (mkColumn (Some "d") None "b")])) ∅
    = (Raises (ValueError "Unexpected literal type <class 'decimal.Decimal'>"), {["c"]}).
Proof.
  assert ("f" ≠ BooleanFunctions.AND) as Hand by done.
  assert ("f" ≠ BooleanFunctions.OR) as Hor by done.
  assert (for_each (@accept Clickhouse.escaping (@formatter Clickhouse.escaping Canonical) 1)
            [Column (mkColumn (Some "c") None "a")] ∅
          = (Returns ["(a AS c)"], {["c"]})) as Hbefore by reflexivity.
  split; [done|]. split; [done|].
  exact (@X9_unexpected_parameter_aborts_call Clickhouse.escaping Canonical 0%nat
           (Some "x") None "f" "decimal.Decimal"
           [Column (mkColumn (Some "c") None "a")] [Column (mkColumn (Some "d") None "b")]
           ∅ {["c"]} ["(a AS c)"] Hand Hor Hbefore).
Defined.

Lemma X10_anonymized_depends_on_blank_tree_witness :
  blank (FunctionCall None "between"
           [Literal (mkLiteral None (VInt 1)); Literal (mkLiteral (Some "hi") (VInt 10))])
  = blank (FunctionCall None "between"
             [Literal (mkLiteral None (VFloat "2.5")); Literal (mkLiteral (Some "hi") (VInt 99))])
  ∧ Clickhouse.format Anonymized 2
      (FunctionCall None "between"
         [Literal (mkLiteral None (VInt 1)); Literal (mkLiteral (Some "hi") (VInt 10))]) ∅
    = Clickhouse.format Anonymized 2
        (FunctionCall None "between"
           [Literal (mkLiteral None (VFloat "2.5"));
            Literal (mkLiteral (Some "hi") (VInt 99))]) ∅.
Proof.
  split; [reflexivity|].
  exact (@X10_anonymized_depends_on_blank_tree Clickhouse.escaping
           (FunctionCall None "between"
              [Literal (mkLiteral None (VInt 1)); Literal (mkLiteral (Some "hi") (VInt 10))])
           (FunctionCall None "between"
              [Literal (mkLiteral None (VFloat "2.5"));
               Literal (mkLiteral (Some "hi") (VInt 99))])
           2%nat ∅ eq_refl).
Defined.

Lemma X11_datetime_rendered_to_the_second_witness :
  Clickhouse.visit_literal Canonical
    (mkLiteral None (VDatetime (mkDatetime (mkDate 2021 5 1) 12 30 45 987000 (Some 120)))) ∅
  = Clickhouse.visit_literal Canonical
      (mkLiteral None (VDatetime (mkDatetime (mkDate 2021 5 1) 12 30 45 0 None))) ∅.
Proof.
  exact (@X11_datetime_rendered_to_the_second Clickhouse.escaping
           (mkDatetime (mkDate 2021 5 1) 12 30 45 987000 (Some 120))
           (mkDatetime (mkDate 2021 5 1) 12 30 45 0 None)
           None ∅ eq_refl eq_refl eq_refl eq_refl).
Defined.

Lemma X12_only_the_aliases_of_the_tree_matter_witness :
  (Clickhouse.format Canonical 2
     (FunctionCall (Some "x") "f" [Column (mkColumn None None "a")]) ∅).1
  = (Clickhouse.format Canonical 2
       (FunctionCall (Some "x") "f" [Column (mkColumn None None "a")]) {["other"]}).1.
Proof.
  refine (proj1 (@X12_only_the_aliases_of_the_tree_matter Clickhouse.escaping Canonical 2%nat
                   (FunctionCall (Some "x") "f" [Column (mkColumn None None "a")])
                   ∅ {["other"]} _)).
  intros a Ha. cbn in Ha. assert (a = "x") as -> by set_solver. set_solver.
Defined.

Lemma X13_row_follows_columns_witness :
  Writer.row_from_processed_event
    [("a", Writer.PInt 1); ("tags.key", Writer.PList [Writer.PStr "x"; Writer.PStr "y"])]
    ["a"; "b"; "tags.value"]
  = Writer.Done [Writer.PInt 1; Writer.PNone; Writer.PList [Writer.PNone; Writer.PNone]]
  ∧ length [Writer.PInt 1; Writer.PNone; Writer.PList [Writer.PNone; Writer.PNone]]
    = length ["a"; "b"; "tags.value"].
Proof.
  split; [reflexivity|].
  exact (proj1 (X13_row_follows_columns
                  [("a", Writer.PInt 1);
                   ("tags.key", Writer.PList [Writer.PStr "x"; Writer.PStr "y"])]
                  ["a"; "b"; "tags.value"]
                  [Writer.PInt 1; Writer.PNone; Writer.PList [Writer.PNone; Writer.PNone]]
                  0%nat "a" eq_refl eq_refl)).
Defined.


Lemma X15_row_returns_iff_siblings_sized_witness :
  ¬ ∃ row,
      Writer.row_from_processed_event
        [("tags.key", Writer.PInt 3)] ["tags.value"] = Writer.Done row.
Proof.
  intros Hrow.
  pose proof (proj1 (X15_row_returns_iff_siblings_sized
                       [("tags.key", Writer.PInt 3)] ["tags.value"]) Hrow
                "tags.value" ltac:(by left) (or_introl eq_refl) eq_refl
                "tags.key" [] (Writer.PInt 3) eq_refl eq_refl) as Hsized.
  discriminate Hsized.
Defined.

Lemma X16_row_raises_only_TypeError_witness :
  ∃ msg,
    Writer.row_from_processed_event [("tags.key", Writer.PNone)] ["tags.key"]
    = Writer.Raised (Writer.TypeError msg).
Proof.
  exact (proj2 (X16_row_raises_only_TypeError [("tags.key", Writer.PNone)] ["tags.key"])
           "tags.key" [] ltac:(by left) eq_refl eq_refl).
Defined.

Lemma X17_len_counts_calls_witness :
  OffsetTracker.run [OffsetTracker.Add 12; OffsetTracker.Add 15] (OffsetTracker.__init__ 10)
  = Returns (OffsetTracker.mk 10 [None; None; Some false; None; None; Some false])
  ∧ OffsetTracker.call
      (OffsetTracker.mk 10 [None; None; Some false; None; None; Some false])
      (OffsetTracker.Remove 15)
    = Returns (OffsetTracker.mk 10 [None; None; Some false; None; None; Some true])
  ∧ S (OffsetTracker.__len__
         (OffsetTracker.mk 10 [None; None; Some false; None; None; Some true]))
    = OffsetTracker.__len__
        (OffsetTracker.mk 10 [None; None; Some false; None; None; Some false]).
Proof.
  split; [reflexivity|]. split; [reflexivity|].
  exact (X17_len_counts_calls 10 [OffsetTracker.Add 12; OffsetTracker.Add 15]
           (OffsetTracker.mk 10 [None; None; Some false; None; None; Some false])
           (OffsetTracker.mk 10 [None; None; Some false; None; None; Some true])
           (OffsetTracker.Remove 15) eq_refl eq_refl).
Defined.
